(** * Smart AI traffic management: the simulation core of [smart_traffic_ai.py]

    A shallow embedding of the queueing model ([Vehicle], [Lane],
    [Intersection]), the arrival process ([TrafficGenerator]), the state
    discretizer ([Sensor]), the tabular learner ([QLearning]) and the decision
    loop ([Simulation.run]), followed by the properties the specification
    states about them.

    Conventions of the embedding.
    - Python numbers that may be fractional (times, rates, Q-values) are
      rationals [Q]; integer quantities (queue lengths, rewards, bin edges)
      are [nat] or [Z].  Rounding of binary floating point is not modelled.
    - A [Vehicle] is a value: every queue slot owns its vehicle (the program
      creates a fresh [Vehicle] per arrival and never stores one twice).
    - The module-level generator of Python's [random] is an explicit state
      threaded through every function that draws from it; [math.exp] is a
      member of the same runtime interface.
    - A call that can raise returns an [outcome]; a loop whose trip count is
      not fixed beforehand takes a fuel argument and answers [OutOfFuel] when
      it is exhausted. *)

From Stdlib Require Import QArith Qround Qminmax Lqa.
From stdpp Require Import base option list gmap.

Local Open Scope Q_scope.

(** ** Outcomes of Python calls *)

Inductive exn : Set := ValueError | TypeError | AttributeError | IndexError | ZeroDivisionError.

Inductive outcome (A : Type) : Type :=
| Ok (a : A)
| Raise (e : exn)
| OutOfFuel.
Arguments Ok {A} a.
Arguments Raise {A} e.
Arguments OutOfFuel {A}.

#[global] Instance outcome_ret : MRet outcome := @Ok.
#[global] Instance outcome_bind : MBind outcome := λ A B f m,
  match m with
  | Ok a => f a
  | Raise e => Raise e
  | OutOfFuel => OutOfFuel
  end.

(** [r1 ⊑ r2]: [r2] is what [r1] becomes when more fuel is granted. *)
Definition refines {A} (r1 r2 : outcome A) : Prop := r1 = OutOfFuel ∨ r1 = r2.
Infix "⊑" := refines (at level 70).

(** ** Python built-ins *)

(** [x < y] on rationals, as a boolean. *)
Definition Qltb (x y : Q) : bool := negb (Qle_bool y x).

(** [int(x)]: truncation toward zero. *)
Definition py_int (x : Q) : Z := Z.quot (Qnum x) (Z.pos (Qden x)).

(** [x / n]: true division, faulting on a zero divisor. *)
Definition py_truediv (x : Q) (n : nat) : outcome Q :=
  match n with
  | O => Raise ZeroDivisionError
  | _ => Ok (x / inject_Z (Z.of_nat n))
  end.

(** The scan of [max(xs, key=...)]: the running best is replaced only by an
    element whose key is strictly greater, so the first maximum wins.  The key
    function may touch a state [S] (a [defaultdict] read inserts its default);
    it is called once per element, in order. *)
Fixpoint max_scan {A K S} (ltb : K → K → bool) (key : A → S → K * S)
    (best : A) (kbest : K) (xs : list A) (st : S) : A * K * S :=
  match xs with
  | [] => (best, kbest, st)
  | y :: ys =>
      let '(ky, st') := key y st in
      if ltb kbest ky then max_scan ltb key y ky ys st'
      else max_scan ltb key best kbest ys st'
  end.

(** [max(xs, key=...)]; [ValueError] on an empty sequence.  Returns the
    winning element, its key and the state after all key calls. *)
Definition py_max_key {A K S} (ltb : K → K → bool) (key : A → S → K * S)
    (xs : list A) (st : S) : outcome (A * K * S) :=
  match xs with
  | [] => Raise ValueError
  | x :: xs' => let '(kx, st') := key x st in Ok (max_scan ltb key x kx xs' st')
  end.

(** [max(xs, key=f)] for a key function without effects. *)
Definition py_max {A K} (ltb : K → K → bool) (key : A → K) (xs : list A) : outcome A :=
  '(best, _, _) ← py_max_key ltb (λ x (_ : unit), (key x, tt)) xs tt; Ok best.

(** ** The runtime interface: [random.random], [random.randrange], [math.exp]

    [G] is the state of the generator behind Python's [random] module.  The
    law is the documented range of [randrange]. *)
Class PyRuntime (G : Type) := {
  random_random : G → Q * G;
  random_randrange : nat → G → nat * G;
  math_exp : Q → Q;
  random_randrange_range : ∀ n g, (0 < n)%nat → ((random_randrange n g).1 < n)%nat
}.

(** [random.randrange(n)]: [ValueError] on an empty range. *)
Definition py_randrange `{PyRuntime G} (n : nat) (g : G) : outcome (nat * G) :=
  match n with
  | O => Raise ValueError
  | _ => Ok (random_randrange n g)
  end.

(** ** Vehicle *)

Record Vehicle := mkVehicle { arrival_time : Q; depart_time : option Q }.

(** [Vehicle(arrival_time)] *)
Definition new_Vehicle (arrival : Q) : Vehicle :=
  {| arrival_time := arrival; depart_time := None |}.

(** [v.depart_time = t] *)
Definition set_depart_time (t : Q) (v : Vehicle) : Vehicle :=
  {| arrival_time := arrival_time v; depart_time := Some t |}.

(** ** Lane *)

Module Lane.

Record t := mk { queue : list Vehicle }.

Definition new : t := {| queue := [] |}.

Definition add_vehicle (v : Vehicle) (l : t) : t := {| queue := queue l ++ [v] |}.

(** Returns the popped vehicle ([None] on an empty queue) and the lane left. *)
Definition remove_vehicle (time : Q) (l : t) : option Vehicle * t :=
  match queue l with
  | [] => (None, l)
  | v :: rest => (Some (set_depart_time time v), {| queue := rest |})
  end.

Definition qlen (l : t) : nat := length (queue l).

End Lane.

(** ** Intersection *)

(** The lane keys ["N"], ["S"], ["E"], ["W"] and the phases ["NS"], ["EW"] of
    the action list. *)
Inductive Dir : Set := North | South | East | West.
Inductive Phase : Set := NS | EW.

#[global] Instance Dir_eq_dec : EqDecision Dir.
Proof. solve_decision. Defined.
#[global] Instance Phase_eq_dec : EqDecision Phase.
Proof. solve_decision. Defined.

(** The keys of [Intersection.lanes], in insertion order. *)
Definition all_dirs : list Dir := [North; South; East; West].

Module Intersection.

Record t := mk {
  lane_N : Lane.t; lane_S : Lane.t; lane_E : Lane.t; lane_W : Lane.t;
  service_rate : Q
}.

Definition new (service_rate : Q) : t :=
  {| lane_N := Lane.new; lane_S := Lane.new; lane_E := Lane.new; lane_W := Lane.new;
     service_rate := service_rate |}.

(** [self.lanes[d]] *)
Definition lanes (i : t) (d : Dir) : Lane.t :=
  match d with
  | North => lane_N i | South => lane_S i | East => lane_E i | West => lane_W i
  end.

(** The intersection after the lane object at [d] has been mutated into [l]. *)
Definition set_lane (d : Dir) (l : Lane.t) (i : t) : t :=
  match d with
  | North => mk l (lane_S i) (lane_E i) (lane_W i) (service_rate i)
  | South => mk (lane_N i) l (lane_E i) (lane_W i) (service_rate i)
  | East => mk (lane_N i) (lane_S i) l (lane_W i) (service_rate i)
  | West => mk (lane_N i) (lane_S i) (lane_E i) l (service_rate i)
  end.

Definition add_vehicle (d : Dir) (v : Vehicle) (i : t) : t :=
  set_lane d (Lane.add_vehicle v (lanes i d)) i.

Definition queue_lengths (i : t) : Dir → nat := λ d, Lane.qlen (lanes i d).

(** [dirs = ["N","S"] if phase=="NS" else ["E","W"]] *)
Definition dirs_of (phase : Phase) : list Dir :=
  match phase with NS => [North; South] | EW => [East; West] end.

(** The body of [for _ in range(cap)], [n] iterations left. *)
Fixpoint serve_loop (n : nat) (dirs : list Dir) (time : Q) (i : t)
    (passed : list (option Vehicle)) : outcome (list (option Vehicle) * t) :=
  match n with
  | O => Ok (passed, i)
  | S n' =>
      best ← py_max Nat.ltb (λ d, Lane.qlen (lanes i d)) dirs;
      if (Lane.qlen (lanes i best) =? 0)%nat then Ok (passed, i)
      else
        let '(v, l') := Lane.remove_vehicle time (lanes i best) in
        serve_loop n' dirs time (set_lane best l' i) (passed ++ [v])
  end.

Definition capacity (i : t) (dt : Q) : Z := py_int (service_rate i * dt).

Definition serve (phase : Phase) (dt time : Q) (i : t)
    : outcome (list (option Vehicle) * t) :=
  serve_loop (Z.to_nat (capacity i dt)) (dirs_of phase) time i [].

End Intersection.

(** ** TrafficGenerator *)

Module TrafficGenerator.

(** [rates]: the dict of arrival rates, as its items in insertion order (the
    keys of a dict are distinct; they are directions of the intersection). *)
Record t := mk { rates : list (Dir * Q) }.

Section generate.
Context `{PyRuntime G}.

(** The [while True] loop of the Poisson draw: multiply [p] by uniform draws
    until it is at most [L], counting the draws that did not get there. *)
Fixpoint poisson_loop (fuel : nat) (L p : Q) (k : nat) (g : G) : outcome (nat * G) :=
  match fuel with
  | O => OutOfFuel
  | S fuel' =>
      let '(u, g') := random_random g in
      let p' := p * u in
      if Qle_bool p' L then Ok (k, g') else poisson_loop fuel' L p' (S k) g'
  end.

(** The body of [for d,rate in self.rates.items()] for one direction. *)
Definition poisson (fuel : nat) (rate dt : Q) (g : G) : outcome (nat * G) :=
  let lam := rate * dt in
  let L := math_exp (- lam) in
  poisson_loop fuel L 1 0 g.

Fixpoint generate_loop (fuel : nat) (rs : list (Dir * Q)) (dt : Q) (g : G)
    : outcome (list (Dir * nat) * G) :=
  match rs with
  | [] => Ok ([], g)
  | (d, rate) :: rs' =>
      '(k, g1) ← poisson fuel rate dt g;
      '(arrivals, g2) ← generate_loop fuel rs' dt g1;
      Ok ((d, k) :: arrivals, g2)
  end.

(** [generate(dt, t)]: the arrival count of every direction of [rates], in
    the order of [rates]; [t] is not used. *)
Definition generate (fuel : nat) (self : t) (dt time : Q) (g : G)
    : outcome (list (Dir * nat) * G) :=
  generate_loop fuel (rates self) dt g.

End generate.
End TrafficGenerator.

(** ** Sensor *)

(** [(disc(ns), disc(ew), diff)] *)
Definition State : Type := nat * nat * Z.

Module Sensor.

Record t := mk { bins : list Z }.

(** [Sensor()]: the default bins [(0,3,6,10,20)]. *)
Definition new : t := {| bins := [0; 3; 6; 10; 20]%Z |}.

(** The index of the first edge [b] with [v <= b]; [len(bins)] if none. *)
Definition disc (self : t) (v : Z) : nat :=
  match list_find (λ b, (v ≤ b)%Z) (bins self) with
  | Some (i, _) => i
  | None => length (bins self)
  end.

Definition read (self : t) (inter : Intersection.t) : State :=
  let q := Intersection.queue_lengths inter in
  let ns := (Z.of_nat (q North) + Z.of_nat (q South))%Z in
  let ew := (Z.of_nat (q East) + Z.of_nat (q West))%Z in
  let diff := if bool_decide (3 < ns - ew)%Z then 1%Z
              else if bool_decide (3 < ew - ns)%Z then (-1)%Z else 0%Z in
  (disc self ns, disc self ew, diff).

End Sensor.

(** ** QLearning *)

Module QLearning.

Record t := mk {
  actions : list (Phase * Q);
  α : Q; γ : Q; ε : Q;
  q : gmap (State * nat) Q
}.

(** [QLearning(actions, α, γ, ε)]: an empty table. *)
Definition new (actions : list (Phase * Q)) (α γ ε : Q) : t :=
  {| actions := actions; α := α; γ := γ; ε := ε; q := ∅ |}.

(** [self.q[key]] on a [defaultdict(float)]: a missing key is inserted with
    the value [0.0], which is returned. *)
Definition getitem (key : State * nat) (tbl : gmap (State * nat) Q)
    : Q * gmap (State * nat) Q :=
  match tbl !! key with
  | Some v => (v, tbl)
  | None => (0, <[key := 0]> tbl)
  end.

(** What a read of [key] yields: the stored value, [0.0] for an unseen key. *)
Definition value (tbl : gmap (State * nat) Q) (key : State * nat) : Q :=
  default 0 (tbl !! key).

Definition set_q (tbl : gmap (State * nat) Q) (self : t) : t :=
  {| actions := actions self; α := α self; γ := γ self; ε := ε self; q := tbl |}.

Section choose.
Context `{PyRuntime G}.

Definition choose (s : State) (self : t) (g : G) : outcome (nat * t * G) :=
  let '(u, g1) := random_random g in
  if Qltb u (ε self) then
    '(a, g2) ← py_randrange (length (actions self)) g1;
    Ok (a, self, g2)
  else
    '(a, _, tbl) ← py_max_key Qltb (λ a, getitem (s, a))
                     (seq 0 (length (actions self))) (q self);
    Ok (a, set_q tbl self, g1).

End choose.

Definition update (s : State) (a : nat) (r : Q) (ns : State) (self : t) : outcome t :=
  let '(cur, tbl1) := getitem (s, a) (q self) in
  '(_, best, tbl2) ← py_max_key Qltb (λ na, getitem (ns, na))
                       (seq 0 (length (actions self))) tbl1;
  Ok (set_q (<[(s, a) := cur + α self * (r + γ self * best - cur)]> tbl2) self).

End QLearning.

(** ** Simulation *)

Module Simulation.

Record t := mk {
  gen : TrafficGenerator.t;
  inter : Intersection.t;
  sensor : Sensor.t;
  dt : Q
}.

(** [Simulation(rates, dt, service)] *)
Definition new (rates : list (Dir * Q)) (dt service : Q) : t :=
  {| gen := TrafficGenerator.mk rates; inter := Intersection.new service;
     sensor := Sensor.new; dt := dt |}.

Definition set_inter (i : Intersection.t) (self : t) : t :=
  {| gen := gen self; inter := i; sensor := sensor self; dt := dt self |}.

Definition reset (self : t) : t :=
  set_inter (Intersection.new (Intersection.service_rate (inter self))) self.

(** The dict [run] returns. *)
Record Result := mkResult { departed : nat; avg_wait : Q; reward : Z }.

(** [for d,c in arrivals.items(): for _ in range(c): add_vehicle(d, Vehicle(tt))] *)
Definition add_arrivals (arrivals : list (Dir * nat)) (tt : Q) (i : Intersection.t)
    : Intersection.t :=
  fold_left (λ i '(d, c), Nat.iter c (Intersection.add_vehicle d (new_Vehicle tt)) i)
            arrivals i.

(** [len(left)*10 - sum(self.inter.queue_lengths().values())*2] *)
Definition reward_of (left : list (option Vehicle)) (i : Intersection.t) : Z :=
  (Z.of_nat (length left) * 10
   - Z.of_nat (sum_list (map (Intersection.queue_lengths i) all_dirs)) * 2)%Z.

(** [v.depart_time - v.arrival_time]; faults on [None] in either place. *)
Definition wait (v : option Vehicle) : outcome Q :=
  match v with
  | None => Raise AttributeError
  | Some v =>
      match depart_time v with
      | None => Raise TypeError
      | Some d => Ok (d - arrival_time v)
      end
  end.

(** [sum(... for v in vs)], the running total starting at [acc]. *)
Fixpoint sum_waits (acc : Q) (vs : list (option Vehicle)) : outcome Q :=
  match vs with
  | [] => Ok acc
  | v :: vs' => w ← wait v; sum_waits (acc + w) vs'
  end.

(** [(sum(...) / len(departed)) if departed else 0] *)
Definition average_wait (departed : list (option Vehicle)) : outcome Q :=
  match departed with
  | [] => Ok 0
  | _ => total ← sum_waits 0 departed; py_truediv total (length departed)
  end.

(** The variables of [run] that live across iterations of its [while] loop,
    with the objects the loop mutates. *)
Record Locals (G : Type) := mkLocals {
  now : Q;                               (* t *)
  departed_list : list (option Vehicle); (* departed *)
  total_r : Z;
  sim : t;                               (* self *)
  ctrl : QLearning.t;
  rng : G
}.
Arguments mkLocals {G}.
Arguments now {G}.
Arguments departed_list {G}.
Arguments total_r {G}.
Arguments sim {G}.
Arguments ctrl {G}.
Arguments rng {G}.

Section run.
Context `{PyRuntime G}.

(** [while tt < t+dur]: draw the arrivals of one micro-step, queue them with
    arrival time [tt], advance [tt] by [dt]. *)
Fixpoint arrive_loop (fuel : nat) (self : t) (tt tend : Q) (g : G)
    : outcome (t * G) :=
  match fuel with
  | O => OutOfFuel
  | S fuel' =>
      if Qltb tt tend then
        '(arrivals, g1) ← TrafficGenerator.generate fuel' (gen self) (dt self) tt g;
        arrive_loop fuel' (set_inter (add_arrivals arrivals tt (inter self)) self)
                    (tt + dt self) tend g1
      else Ok (self, g)
  end.

(** One decision step: the body of [while t<max_t].  The [explain] branch
    only prints and is left out. *)
Definition step (fuel : nat) (train : bool) (st : Locals G) : outcome (Locals G) :=
  let s := Sensor.read (sensor (sim st)) (inter (sim st)) in
  '(a, ctrl1, g1) ← QLearning.choose s (ctrl st) (rng st);
  '(phase, dur) ← match QLearning.actions ctrl1 !! a with
                  | Some pd => Ok pd
                  | None => Raise IndexError
                  end;
  '(sim1, g2) ← arrive_loop fuel (sim st) (now st) (now st + dur) g1;
  '(left', inter2) ← Intersection.serve phase dur (now st + dur) (inter sim1);
  let sim2 := set_inter inter2 sim1 in
  let reward := reward_of left' inter2 in
  let ns := Sensor.read (sensor sim2) inter2 in
  ctrl2 ← (if train then QLearning.update s a (inject_Z reward) ns ctrl1 else Ok ctrl1);
  Ok {| now := now st + dur;
        departed_list := departed_list st ++ left';
        total_r := (total_r st + reward)%Z;
        sim := sim2; ctrl := ctrl2; rng := g2 |}.

Fixpoint run_loop (fuel : nat) (max_t : Q) (train : bool) (st : Locals G)
    : outcome (Locals G) :=
  match fuel with
  | O => OutOfFuel
  | S fuel' =>
      if Qltb (now st) max_t then
        st' ← step fuel' train st; run_loop fuel' max_t train st'
      else Ok st
  end.

(** The locals at the entry of the loop: [t = 0; departed = []; total_r = 0]. *)
Definition entry (self : t) (c : QLearning.t) (g : G) : Locals G :=
  {| now := 0; departed_list := []; total_r := 0; sim := self; ctrl := c; rng := g |}.

(** What follows the loop: the average wait and the returned dict. *)
Definition result_of (st : Locals G) : outcome Result :=
  avg ← average_wait (departed_list st);
  Ok {| departed := length (departed_list st); avg_wait := avg; reward := total_r st |}.

(** [run(ctrl, max_t, train)]: the returned dict, with the locals at exit
    (they hold the mutated simulation, controller and generator). *)
Definition run (fuel : nat) (self : t) (c : QLearning.t) (max_t : Q) (train : bool) (g : G)
    : outcome (Result * Locals G) :=
  st ← run_loop fuel max_t train (entry self c g);
  r ← result_of st;
  Ok (r, st).

End run.
End Simulation.

(** ** A concrete runtime and configuration, for running the model

    The generator state is a boolean that flips at every draw:
    [random()] alternates between 9/10 and 3/10 and [randrange(n)] between
    [n-1] and [0]; [exp(x)] is replaced by the rational [1/(1 - x + x²/2)],
    which is positive everywhere. *)

Module Demo.

#[global, refine] Instance runtime : PyRuntime bool := {|
  random_random := λ g : bool, (if g then 9 # 10 else 3 # 10, negb g);
  random_randrange := λ (n : nat) (g : bool), (if g then Nat.pred n else O, negb g);
  math_exp := λ x : Q, 1 / (1 - x + x * x / 2)
|}.
Proof. intros n []; simpl; lia. Defined.

(** The configuration of [main()]. *)
Definition rates : list (Dir * Q) :=
  [(North, 20 # 100); (South, 15 # 100); (East, 25 # 100); (West, 18 # 100)].
Definition sim0 : Simulation.t := Simulation.new rates 1 (8 # 10).
Definition actions : list (Phase * Q) := [(NS, 5); (NS, 10); (EW, 5); (EW, 10)].
Definition ctrl0 : QLearning.t := QLearning.new actions (1 # 10) (9 # 10) (3 # 10).

End Demo.

(** ** main

    The three phases of [main()]: a baseline run of a controller that always
    explores, twenty training episodes with an annealed ε, and an evaluation
    run of the trained controller with ε = 0.  The prints are left out; the
    model returns what they report. *)

Module Main.

(** [ctrl.ε = v] *)
Definition set_ε (v : Q) (c : QLearning.t) : QLearning.t :=
  {| QLearning.actions := QLearning.actions c; QLearning.α := QLearning.α c;
     QLearning.γ := QLearning.γ c; QLearning.ε := v; QLearning.q := QLearning.q c |}.

(** [max(0.05, 0.3*(1-ep/20))]: the second argument wins only if greater. *)
Definition anneal (ep : nat) : Q :=
  let x := (3 # 10) * (1 - inject_Z (Z.of_nat ep) / 20) in
  if Qltb (5 # 100) x then x else 5 # 100.

Section main.
Context `{PyRuntime G}.

(** The body of [for ep in range(1, 21)], over the episodes left. *)
Fixpoint train_episodes (fuel : nat) (eps : list nat) (sim : Simulation.t)
    (ctrl : QLearning.t) (g : G) : outcome (Simulation.t * QLearning.t * G) :=
  match eps with
  | [] => Ok (sim, ctrl, g)
  | ep :: eps' =>
      let sim1 := Simulation.reset sim in
      let ctrl1 := set_ε (anneal ep) ctrl in
      '(res, st) ← Simulation.run fuel sim1 ctrl1 120 true g;
      train_episodes fuel eps' (Simulation.sim st) (Simulation.ctrl st) (Simulation.rng st)
  end.

(** Returns [baseline], [result] and [diff]. *)
Definition main (fuel : nat) (g : G)
    : outcome (Simulation.Result * Simulation.Result * Q) :=
  let rates := [(North, 20 # 100); (South, 15 # 100); (East, 25 # 100); (West, 18 # 100)] in
  let sim := Simulation.new rates 1 (8 # 10) in
  let actions := [(NS, 5); (NS, 10); (EW, 5); (EW, 10)] in
  let ctrl := QLearning.new actions (1 # 10) (9 # 10) (3 # 10) in
  let sim := Simulation.reset sim in
  let fixed_ctrl := set_ε 1 (QLearning.new actions (1 # 10) (9 # 10) (2 # 10)) in
  '(baseline, st0) ← Simulation.run fuel sim fixed_ctrl 120 false g;
  '(sim1, ctrl1, g1) ← train_episodes fuel (seq 1 20) (Simulation.sim st0) ctrl
                         (Simulation.rng st0);
  let sim2 := Simulation.reset sim1 in
  let ctrl2 := set_ε 0 ctrl1 in
  '(result, st2) ← Simulation.run fuel sim2 ctrl2 120 false g1;
  let diff := Simulation.avg_wait baseline - Simulation.avg_wait result in
  Ok (baseline, result, diff).

End main.
End Main.

(** * Vocabulary of the properties *)

(** A call on a lane, and the log of a call sequence: for every
    [remove_vehicle(t)] call, in order, its argument and what it returned. *)
Inductive lane_call := Add (v : Vehicle) | RemoveOne (time : Q).

Fixpoint lane_calls (cs : list lane_call) (l : Lane.t)
    : list (Q * option Vehicle) * Lane.t :=
  match cs with
  | [] => ([], l)
  | Add v :: cs' => lane_calls cs' (Lane.add_vehicle v l)
  | RemoveOne time :: cs' =>
      let '(r, l1) := Lane.remove_vehicle time l in
      let '(log, l2) := lane_calls cs' l1 in
      ((time, r) :: log, l2)
  end.

(** The vehicles a call sequence adds, in call order. *)
Fixpoint added (cs : list lane_call) : list Vehicle :=
  match cs with
  | [] => []
  | Add v :: cs' => v :: added cs'
  | RemoveOne _ :: cs' => added cs'
  end.

(** The calls of a log that returned a vehicle, each with its time argument. *)
Fixpoint returned (log : list (Q * option Vehicle)) : list (Q * Vehicle) :=
  match log with
  | [] => []
  | (time, Some v) :: log' => (time, v) :: returned log'
  | (_, None) :: log' => returned log'
  end.

(** A served entry: a vehicle, stamped with the given time. *)
Definition stamped (time : Q) (o : option Vehicle) : Prop :=
  ∃ v, o = Some v ∧ depart_time v = Some time.

(** The direction [serve] picks among [d1; d2]. *)
Definition pick (i : Intersection.t) (d1 d2 : Dir) : Dir :=
  if (Lane.qlen (Intersection.lanes i d1) <? Lane.qlen (Intersection.lanes i d2))%nat
  then d2 else d1.

(** The arithmetic mean of a list of rationals, 0 for the empty list. *)
Definition mean (ws : list Q) : Q :=
  match ws with
  | [] => 0
  | _ => foldr Qplus 0 ws / inject_Z (Z.of_nat (length ws))
  end.

(** A vehicle that arrived at [ad.1] and departed at [ad.2], as [serve]
    returns it. *)
Definition departed_at (ad : Q * Q) : option Vehicle :=
  Some {| arrival_time := ad.1; depart_time := Some ad.2 |}.

(** An entry of the departed list that holds a vehicle with a departure time. *)
Definition served (o : option Vehicle) : Prop :=
  ∃ v d, o = Some v ∧ depart_time v = Some d.

(** The longest duration of an action list (0 for the empty list). *)
Definition max_duration (acts : list (Phase * Q)) : Q :=
  foldr (λ pd m, Qmax pd.2 m) 0 acts.

(** The Poisson draw of every configured rate halts, whatever state the
    generator is in. *)
Definition sampler_total `{PyRuntime G} (rs : list (Dir * Q)) (dt : Q) : Prop :=
  ∀ d rate (g : G), (d, rate) ∈ rs →
    ∃ n k g', TrafficGenerator.poisson n rate dt g = Ok (k, g').

(** The locals of a run whose configuration is [rs], [dt], [acts]. *)
Definition configured {G} (rs : list (Dir * Q)) (dt : Q) (acts : list (Phase * Q))
    (st : Simulation.Locals G) : Prop :=
  TrafficGenerator.rates (Simulation.gen (Simulation.sim st)) = rs
  ∧ Simulation.dt (Simulation.sim st) = dt
  ∧ QLearning.actions (Simulation.ctrl st) = acts.

(** Two outcomes of the same kind, with results related by [P]. *)
Definition same_outcome {A B} (P : A → B → Prop) (r1 : outcome A) (r2 : outcome B) : Prop :=
  match r1, r2 with
  | Ok a, Ok b => P a b
  | Raise e1, Raise e2 => e1 = e2
  | OutOfFuel, OutOfFuel => True
  | _, _ => False
  end.

(** The same value, with related generator states. *)
Definition paired {A G1 G2} (R : G1 → G2 → Prop) (x : A * G1) (y : A * G2) : Prop :=
  x.1 = y.1 ∧ R x.2 y.2.

(** The same locals, with related generator states: the same clock, the same
    departed vehicles (with their timestamps), the same total reward, the same
    queues, the same Q-table. *)
Definition same_locals {G1 G2} (R : G1 → G2 → Prop)
    (st1 : Simulation.Locals G1) (st2 : Simulation.Locals G2) : Prop :=
  Simulation.now st1 = Simulation.now st2
  ∧ Simulation.departed_list st1 = Simulation.departed_list st2
  ∧ Simulation.total_r st1 = Simulation.total_r st2
  ∧ Simulation.sim st1 = Simulation.sim st2
  ∧ Simulation.ctrl st1 = Simulation.ctrl st2
  ∧ R (Simulation.rng st1) (Simulation.rng st2).

(** The distance between two queue lengths. *)
Definition gap (a b : nat) : nat := (a - b) + (b - a).

(** What [serve] does to a vehicle it returns. *)
Definition depart (time : Q) (v : Vehicle) : option Vehicle :=
  Some (set_depart_time time v).

(** The first [n] values of [random.random()] from the state [g], with the
    state they leave. *)
Fixpoint draws `{PyRuntime G} (n : nat) (g : G) : list Q * G :=
  match n with
  | O => ([], g)
  | S n' =>
      let '(u, g1) := random_random g in
      let '(us, g2) := draws n' g1 in
      (u :: us, g2)
  end.

(** The number of arrivals a [generate] result announces for direction [d]. *)
Definition arrivals_for (d : Dir) (arrivals : list (Dir * nat)) : nat :=
  sum_list_with snd (filter (λ dc, dc.1 = d) arrivals).

(** * Properties *)

(** ** Arithmetic and built-ins *)

Lemma Qltb_lt (x y : Q) : Qltb x y = true ↔ x < y.
Proof.
  unfold Qltb. rewrite negb_true_iff, <- not_true_iff_false, Qle_bool_iff.
  split; [apply Qnot_le_lt | apply Qlt_not_le].
Qed.

Lemma Qltb_ge (x y : Q) : Qltb x y = false ↔ y <= x.
Proof. unfold Qltb. rewrite negb_false_iff. apply Qle_bool_iff. Qed.

(** On a non-negative rational [int()] is the floor. *)
Lemma py_int_floor (x : Q) : 0 <= x → py_int x = Qfloor x.
Proof.
  destruct x as [n d]. unfold Qle, py_int, Qfloor. simpl. intros Hn.
  apply Z.quot_div_nonneg; lia.
Qed.

(** ** Sensor *)

(** C2, as amended. [Sensor.disc(v)] is the index of the first bin edge that
    is at least [v] (every earlier edge is below [v]), and [len(bins)] when
    [v] exceeds every edge; with the default bins [(0,3,6,10,20)] it maps
    0, 3, 4, 20, 21 to 0, 1, 2, 4, 5. *)
Theorem disc_first_edge :
  (∀ (self : Sensor.t) (v : Z),
     (∃ b, Sensor.bins self !! Sensor.disc self v = Some b ∧ (v ≤ b)%Z ∧
           ∀ j b', (j < Sensor.disc self v)%nat → Sensor.bins self !! j = Some b' → (b' < v)%Z)
     ∨ (Sensor.disc self v = length (Sensor.bins self) ∧
        Forall (λ b, (b < v)%Z) (Sensor.bins self)))
  ∧ Sensor.disc Sensor.new 0 = 0%nat
  ∧ Sensor.disc Sensor.new 3 = 1%nat
  ∧ Sensor.disc Sensor.new 4 = 2%nat
  ∧ Sensor.disc Sensor.new 20 = 4%nat
  ∧ Sensor.disc Sensor.new 21 = 5%nat.
Proof.
  split; [| repeat split; vm_compute; reflexivity].
  intros self v. unfold Sensor.disc.
  destruct (list_find _ _) as [[i b]|] eqn:Hfind.
  - apply list_find_Some in Hfind as (Hi & Hb & Hmin). left. exists b.
    repeat split; [done..|]. intros j b' Hj Hb'.
    specialize (Hmin j b' Hb' Hj). lia.
  - apply list_find_None in Hfind. right. split; [done|].
    eapply Forall_impl; [exact Hfind|]. simpl. intros; lia.
Qed.

(** C2, as stated, fails on the default bins: the edge 0 occupies index 0,
    so 3 falls at index 1 (not 0) and 4 at index 2 (not 1). *)
Lemma disc_default_bins_3_and_4 :
  Sensor.disc Sensor.new 3 ≠ 0%nat ∧ Sensor.disc Sensor.new 4 ≠ 1%nat.
Proof. split; vm_compute; discriminate. Qed.

(** ** Lane *)

(** C6. Whatever the sequence of [add_vehicle] and [remove_vehicle] calls on
    a lane: the vehicles returned are, in order, the first vehicles of the
    line (the initial queue followed by the vehicles added, in the order of
    adding), each with [depart_time] set to the time argument of the call that
    returned it; the lane is left holding the rest of the line, in order. *)
Theorem lane_fifo (cs : list lane_call) (l : Lane.t) :
  let line := Lane.queue l ++ added cs in
  let out := returned (lane_calls cs l).1 in
  out.*2 = zip_with set_depart_time out.*1 (take (length out) line)
  ∧ Lane.queue (lane_calls cs l).2 = drop (length out) line
  ∧ Forall (λ tv, depart_time tv.2 = Some tv.1) out.
Proof.
  revert l. induction cs as [|[v|time] cs IH]; intros l; simpl.
  - rewrite app_nil_r. by rewrite drop_0.
  - specialize (IH (Lane.add_vehicle v l)). simpl in IH.
    rewrite <- app_assoc in IH. exact IH.
  - unfold Lane.remove_vehicle. destruct (Lane.queue l) as [|v rest] eqn:Hq.
    + specialize (IH l). rewrite Hq in IH.
      destruct (lane_calls cs l) as [log l2]. exact IH.
    + specialize (IH (Lane.mk rest)). simpl in IH.
      destruct (lane_calls cs (Lane.mk rest)) as [log l2]. simpl in *.
      destruct IH as (IH1 & IH2 & IH3). repeat split.
      * f_equal. exact IH1.
      * exact IH2.
      * by constructor.
Qed.

(** ** Intersection *)

Lemma py_max_pair {A} (key : A → nat) (x y : A) :
  py_max Nat.ltb key [x; y] = Ok (if (key x <? key y)%nat then y else x).
Proof. unfold py_max. simpl. by destruct (key x <? key y)%nat. Qed.

Lemma lanes_set_lane_eq d l i : Intersection.lanes (Intersection.set_lane d l i) d = l.
Proof. by destruct d. Qed.

Lemma lanes_set_lane_ne d d' l i :
  d ≠ d' → Intersection.lanes (Intersection.set_lane d l i) d' = Intersection.lanes i d'.
Proof. by destruct d, d'. Qed.

Lemma service_rate_set_lane d l i :
  Intersection.service_rate (Intersection.set_lane d l i) = Intersection.service_rate i.
Proof. by destruct d. Qed.

Lemma dirs_of_pair phase :
  ∃ d1 d2, Intersection.dirs_of phase = [d1; d2] ∧ d1 ≠ d2.
Proof. destruct phase; simpl; eauto. Qed.

Lemma serve_loop_step n d1 d2 time i passed :
  Intersection.serve_loop (S n) [d1; d2] time i passed =
  match Lane.queue (Intersection.lanes i (pick i d1 d2)) with
  | [] => Ok (passed, i)
  | v :: rest =>
      Intersection.serve_loop n [d1; d2] time
        (Intersection.set_lane (pick i d1 d2) (Lane.mk rest) i)
        (passed ++ [Some (set_depart_time time v)])
  end.
Proof.
  simpl. rewrite py_max_pair. simpl. fold (pick i d1 d2).
  unfold Lane.qlen, Lane.remove_vehicle.
  by destruct (Lane.queue (Intersection.lanes i (pick i d1 d2))).
Qed.

(** What one [serve] loop does to the intersection, whatever the capacity. *)
Lemma serve_loop_spec n d1 d2 time i passed :
  d1 ≠ d2 →
  ∃ out i',
    Intersection.serve_loop n [d1; d2] time i passed = Ok (passed ++ out, i')
    ∧ (length out ≤ n)%nat
    ∧ (length out + Lane.qlen (Intersection.lanes i' d1)
                  + Lane.qlen (Intersection.lanes i' d2)
       = Lane.qlen (Intersection.lanes i d1) + Lane.qlen (Intersection.lanes i d2))%nat
    ∧ (∀ d, d ≠ d1 → d ≠ d2 → Intersection.lanes i' d = Intersection.lanes i d)
    ∧ Intersection.service_rate i' = Intersection.service_rate i
    ∧ Forall (stamped time) out.
Proof.
  intros Hne. revert i passed. induction n as [|n IH]; intros i passed.
  { exists [], i. rewrite app_nil_r. repeat split; simpl; auto with lia. }
  rewrite serve_loop_step.
  destruct (Lane.queue (Intersection.lanes i (pick i d1 d2))) as [|v rest] eqn:Hq.
  { exists [], i. rewrite app_nil_r. repeat split; simpl; auto with lia. }
  destruct (IH (Intersection.set_lane (pick i d1 d2) (Lane.mk rest) i)
               (passed ++ [Some (set_depart_time time v)]))
    as (out & i' & Hrun & Hlen & Hsum & Hframe & Hrate & Hst).
  exists (Some (set_depart_time time v) :: out), i'.
  rewrite Hrun, <- app_assoc. simpl. repeat split.
  - lia.
  - rewrite Hsum. unfold pick in *.
    destruct (_ <? _)%nat;
      rewrite lanes_set_lane_eq, lanes_set_lane_ne by done;
      unfold Lane.qlen; rewrite Hq; simpl; lia.
  - intros d Hd1 Hd2. rewrite Hframe by done. apply lanes_set_lane_ne.
    unfold pick. by destruct (_ <? _)%nat.
  - by rewrite Hrate, service_rate_set_lane.
  - constructor; [|done]. by eexists.
Qed.

Lemma serve_spec phase dt time i :
  ∃ d1 d2 out i',
    Intersection.dirs_of phase = [d1; d2] ∧ d1 ≠ d2
    ∧ Intersection.serve phase dt time i = Ok (out, i')
    ∧ (length out ≤ Z.to_nat (Intersection.capacity i dt))%nat
    ∧ (length out + Lane.qlen (Intersection.lanes i' d1)
                  + Lane.qlen (Intersection.lanes i' d2)
       = Lane.qlen (Intersection.lanes i d1) + Lane.qlen (Intersection.lanes i d2))%nat
    ∧ (∀ d, d ≠ d1 → d ≠ d2 → Intersection.lanes i' d = Intersection.lanes i d)
    ∧ Intersection.service_rate i' = Intersection.service_rate i
    ∧ Forall (stamped time) out.
Proof.
  destruct (dirs_of_pair phase) as (d1 & d2 & Hdirs & Hne).
  unfold Intersection.serve. rewrite Hdirs.
  destruct (serve_loop_spec (Z.to_nat (Intersection.capacity i dt)) d1 d2 time i [] Hne)
    as (out & i' & Hrun & ?). exists d1, d2, out, i'. by rewrite Hrun.
Qed.

(** C1. When [service_rate * duration] is not negative (the rate and every
    action's duration are positive), [serve] returns a list of at most
    [floor(service_rate * duration)] vehicles, and of at most as many as the
    two lanes of the active phase hold together when it is called. *)
Theorem serve_capacity_bound (phase : Phase) (dt time : Q) (i : Intersection.t) :
  0 <= Intersection.service_rate i * dt →
  ∃ out i',
    Intersection.serve phase dt time i = Ok (out, i')
    ∧ (Z.of_nat (length out) ≤ Qfloor (Intersection.service_rate i * dt))%Z
    ∧ (length out
       ≤ sum_list (map (Intersection.queue_lengths i) (Intersection.dirs_of phase)))%nat.
Proof.
  intros Hpos.
  destruct (serve_spec phase dt time i)
    as (d1 & d2 & out & i' & Hdirs & _ & Hrun & Hcap & Hsum & _).
  exists out, i'. split; [done|]. split.
  - pose proof (Qfloor_resp_le _ _ Hpos) as Hfloor. change (Qfloor 0) with 0%Z in Hfloor.
    unfold Intersection.capacity in Hcap. rewrite py_int_floor in Hcap by done. lia.
  - rewrite Hdirs. unfold Intersection.queue_lengths. simpl. lia.
Qed.

(** The bound on a lane of two vehicles, service rate 0.8 and duration 5. *)
Lemma serve_capacity_bound_witness :
  ∃ out i',
    Intersection.serve NS 5 5
      (Intersection.mk (Lane.mk [new_Vehicle 0; new_Vehicle 1]) Lane.new Lane.new Lane.new
                       (8 # 10)) = Ok (out, i')
    ∧ (Z.of_nat (length out) ≤ Qfloor ((8 # 10) * 5))%Z
    ∧ (length out ≤ 2)%nat.
Proof.
  apply (serve_capacity_bound NS 5 5
    (Intersection.mk (Lane.mk [new_Vehicle 0; new_Vehicle 1]) Lane.new Lane.new Lane.new
                     (8 # 10))).
  vm_compute. discriminate.
Defined.

(** Three vehicles that arrived at 0, 1 and 2 wait on N; a phase of capacity
    2 that ends at time 5 returns the first two, stamped 5, and leaves the
    third. *)
Example serve_two_of_three :
  Intersection.serve NS 2 5
    (Intersection.mk (Lane.mk [new_Vehicle 0; new_Vehicle 1; new_Vehicle 2])
                     Lane.new Lane.new Lane.new 1)
  = Ok ([Some (mkVehicle 0 (Some 5)); Some (mkVehicle 1 (Some 5))],
        Intersection.mk (Lane.mk [new_Vehicle 2]) Lane.new Lane.new Lane.new 1).
Proof. reflexivity. Qed.


(** C10. [serve] does not touch the lanes of the other phase: after a call
    with phase NS the E and W lanes are the lanes they were, after a call with
    phase EW the N and S lanes are. *)
Theorem serve_inactive_lanes_unchanged (phase : Phase) (dt time : Q) (i : Intersection.t) :
  ∃ out i',
    Intersection.serve phase dt time i = Ok (out, i')
    ∧ match phase with
      | NS => Intersection.lanes i' East = Intersection.lanes i East
              ∧ Intersection.lanes i' West = Intersection.lanes i West
      | EW => Intersection.lanes i' North = Intersection.lanes i North
              ∧ Intersection.lanes i' South = Intersection.lanes i South
      end.
Proof.
  destruct (serve_spec phase dt time i)
    as (d1 & d2 & out & i' & Hdirs & _ & Hrun & _ & _ & Hframe & _).
  exists out, i'. split; [done|].
  destruct phase; injection Hdirs as <- <-; split; by apply Hframe.
Qed.

(** ** QLearning *)

Lemma getitem_fst key tbl : (QLearning.getitem key tbl).1 = QLearning.value tbl key.
Proof. unfold QLearning.getitem, QLearning.value. by destruct (tbl !! key). Qed.

(** A [defaultdict] read may add the key, but changes no value read. *)
Lemma getitem_snd key tbl key' :
  QLearning.value (QLearning.getitem key tbl).2 key' = QLearning.value tbl key'.
Proof.
  unfold QLearning.getitem, QLearning.value.
  destruct (tbl !! key) eqn:Hk; simpl; [done|].
  destruct (decide (key = key')) as [<-|Hne].
  - by rewrite lookup_insert_eq, Hk.
  - by rewrite lookup_insert_ne.
Qed.

Section max_scan.
Context {A S : Type} (R : S → Prop) (f : A → Q) (key : A → S → Q * S).
Hypothesis key_reads : ∀ x st, R st → (key x st).1 = f x ∧ R (key x st).2.

(** The scan keeps the first element of greatest key among those seen:
    everything before it is strictly smaller, nothing after it is greater. *)
Lemma max_scan_first_max xs : ∀ pre best post st,
  R st →
  Forall (λ x, f x < f best) pre →
  Forall (λ x, f x <= f best) post →
  ∃ b st' l1 l2,
    max_scan Qltb key best (f best) xs st = (b, f b, st')
    ∧ R st'
    ∧ pre ++ best :: post ++ xs = l1 ++ b :: l2
    ∧ Forall (λ x, f x < f b) l1
    ∧ Forall (λ x, f x <= f b) l2.
Proof.
  induction xs as [|y ys IH]; intros pre best post st HR Hpre Hpost; simpl.
  { exists best, st, pre, post. by rewrite app_nil_r. }
  destruct (key_reads y st HR) as [Hky HR'].
  destruct (key y st) as [ky st1]. simpl in Hky, HR'. subst ky.
  destruct (Qltb (f best) (f y)) eqn:Hcmp.
  - apply Qltb_lt in Hcmp.
    destruct (IH (pre ++ best :: post) y [] st1 HR') as (b & st' & l1 & l2 & Hscan & ?).
    + apply Forall_app. split; [|constructor].
      * eapply Forall_impl; [exact Hpre|]. simpl. intros x Hx. lra.
      * done.
      * eapply Forall_impl; [exact Hpost|]. simpl. intros x Hx. lra.
    + constructor.
    + exists b, st', l1, l2. rewrite Hscan. simpl in *.
      by rewrite <- app_assoc in *.
  - apply Qltb_ge in Hcmp.
    destruct (IH pre best (post ++ [y]) st1 HR' Hpre) as (b & st' & l1 & l2 & Hscan & ?).
    + apply Forall_app. split; [done|]. by constructor.
    + exists b, st', l1, l2. rewrite Hscan. by rewrite <- app_assoc in *.
Qed.

Lemma py_max_key_first_max x xs st :
  R st →
  ∃ b st' l1 l2,
    py_max_key Qltb key (x :: xs) st = Ok (b, f b, st')
    ∧ R st'
    ∧ x :: xs = l1 ++ b :: l2
    ∧ Forall (λ x, f x < f b) l1
    ∧ Forall (λ x, f x <= f b) l2.
Proof.
  intros HR. unfold py_max_key.
  destruct (key_reads x st HR) as [Hkx HR'].
  destruct (key x st) as [kx st1]. simpl in Hkx, HR'. subst kx.
  destruct (max_scan_first_max xs [] x [] st1 HR') as (b & st' & l1 & l2 & Hscan & ?);
    [constructor..|].
  exists b, st', l1, l2. by rewrite Hscan.
Qed.

End max_scan.

(** Where a split of [range(n)] puts the element in the middle. *)
Lemma seq_split_middle n l1 b l2 :
  seq 0 n = l1 ++ b :: l2 →
  (b < n)%nat ∧ (∀ j, (j < b)%nat → j ∈ l1) ∧ (∀ j, (j < n)%nat → j ∈ l1 ∨ j = b ∨ j ∈ l2).
Proof.
  intros Hsplit.
  assert (Hb : b = length l1).
  { assert (Hl : seq 0 n !! length l1 = Some b)
      by (rewrite Hsplit; apply list_lookup_middle; done).
    apply lookup_seq in Hl. lia. }
  assert (Hmem : ∀ j, (j < n)%nat → j ∈ l1 ++ b :: l2).
  { intros j Hj. rewrite <- Hsplit. apply elem_of_seq. lia. }
  split; [|split].
  - assert (b ∈ seq 0 n) as Hin by (rewrite Hsplit; set_solver).
    apply elem_of_seq in Hin. lia.
  - intros j Hj. subst b.
    assert (Hl : seq 0 n !! j = Some j).
    { apply lookup_seq. split; [done|].
      apply (f_equal length) in Hsplit. rewrite length_seq, length_app in Hsplit.
      simpl in Hsplit. lia. }
    rewrite Hsplit, lookup_app_l in Hl by done.
    by apply list_elem_of_lookup_2 in Hl.
  - intros j Hj. specialize (Hmem j Hj). set_solver.
Qed.

(** The greedy scan of [choose] and [update] over [range(n)], [n > 0]. *)
Lemma greedy_scan (s : State) (n : nat) (tbl0 tbl : gmap (State * nat) Q) :
  (0 < n)%nat →
  (∀ key, QLearning.value tbl key = QLearning.value tbl0 key) →
  ∃ a tbl',
    py_max_key Qltb (λ a, QLearning.getitem (s, a)) (seq 0 n) tbl
    = Ok (a, QLearning.value tbl0 (s, a), tbl')
    ∧ (a < n)%nat
    ∧ (∀ j, (j < n)%nat → QLearning.value tbl0 (s, j) <= QLearning.value tbl0 (s, a))
    ∧ (∀ j, (j < a)%nat → QLearning.value tbl0 (s, j) < QLearning.value tbl0 (s, a))
    ∧ (∀ key, QLearning.value tbl' key = QLearning.value tbl0 key).
Proof.
  intros Hn Htbl. destruct n as [|m]; [lia|]. simpl seq.
  destruct (py_max_key_first_max
              (λ st, ∀ key, QLearning.value st key = QLearning.value tbl0 key)
              (λ a, QLearning.value tbl0 (s, a))
              (λ a, QLearning.getitem (s, a))) with (x := O) (xs := seq 1 m) (st := tbl)
    as (b & tbl' & l1 & l2 & Hmax & HR & Hsplit & Hl1 & Hl2).
  - intros x st HR. split.
    + by rewrite getitem_fst, HR.
    + intros key. by rewrite getitem_snd, HR.
  - done.
  - change (0%nat :: seq 1 m) with (seq 0 (S m)) in Hsplit.
    apply seq_split_middle in Hsplit as (Hb & Hlow & Hall).
    rewrite Forall_forall in Hl1, Hl2.
    exists b, tbl'. split; [done|]. split; [done|]. split; [|split; [|done]].
    + intros j Hj. destruct (Hall j Hj) as [Hin|[->|Hin]].
      * apply Qlt_le_weak. by apply Hl1.
      * apply Qle_refl.
      * by apply Hl2.
    + intros j Hj. by apply Hl1, Hlow.
Qed.

Lemma value_insert_eq key v tbl : QLearning.value (<[key := v]> tbl) key = v.
Proof. unfold QLearning.value. by rewrite lookup_insert_eq. Qed.

Lemma value_insert_ne key key' v tbl :
  key ≠ key' → QLearning.value (<[key := v]> tbl) key' = QLearning.value tbl key'.
Proof. intros. unfold QLearning.value. by rewrite lookup_insert_ne. Qed.

Lemma length_pos_of_ne_nil {A} (l : list A) : l ≠ [] → (0 < length l)%nat.
Proof. destruct l; [done | simpl; lia]. Qed.

(** C3. With a non-empty action list, [update(s, a, r, ns)] stores at [(s, a)]
    the value [Q(s,a) + α * (r + γ * best − Q(s,a))], where [best] is the
    greatest of the values [Q(ns, a')] over the action indices [a'], every
    value being the one read before the call (0 for an unseen entry); the value
    read at any other pair is the same after the call as before, and the
    action list and the hyperparameters are not touched. *)
Theorem update_td_rule (s : State) (a : nat) (r : Q) (ns : State) (self : QLearning.t) :
  QLearning.actions self ≠ [] →
  ∃ self' a',
    QLearning.update s a r ns self = Ok self'
    ∧ (a' < length (QLearning.actions self))%nat
    ∧ (∀ j, (j < length (QLearning.actions self))%nat →
         QLearning.value (QLearning.q self) (ns, j)
         <= QLearning.value (QLearning.q self) (ns, a'))
    ∧ QLearning.value (QLearning.q self') (s, a)
      = QLearning.value (QLearning.q self) (s, a)
        + QLearning.α self
          * (r + QLearning.γ self * QLearning.value (QLearning.q self) (ns, a')
             - QLearning.value (QLearning.q self) (s, a))
    ∧ (∀ key, key ≠ (s, a) →
         QLearning.value (QLearning.q self') key = QLearning.value (QLearning.q self) key)
    ∧ QLearning.actions self' = QLearning.actions self
    ∧ (QLearning.α self', QLearning.γ self', QLearning.ε self')
      = (QLearning.α self, QLearning.γ self, QLearning.ε self).
Proof.
  intros Hne. apply length_pos_of_ne_nil in Hne. unfold QLearning.update.
  pose proof (getitem_fst (s, a) (QLearning.q self)) as Hcur.
  pose proof (getitem_snd (s, a) (QLearning.q self)) as Htbl1.
  destruct (QLearning.getitem (s, a) (QLearning.q self)) as [cur tbl1].
  simpl in Hcur, Htbl1. subst cur.
  destruct (greedy_scan ns _ (QLearning.q self) tbl1 Hne Htbl1)
    as (a' & tbl2 & Hmax & Ha' & Hbest & _ & Htbl2).
  rewrite Hmax. simpl. eexists _, a'. split; [reflexivity|]. simpl.
  split; [done|]. split; [done|]. split; [apply value_insert_eq|].
  split; [|done].
  intros key Hkey. rewrite value_insert_ne by done. apply Htbl2.
Qed.

(** The update of the demo controller's empty table: 0 + 0.1 * (7 + 0.9 * 0 - 0). *)
Lemma update_td_rule_witness :
  ∃ self',
    QLearning.update (0, 0, 0%Z)%nat 1 7 (1, 0, 0%Z)%nat Demo.ctrl0 = Ok self'
    ∧ QLearning.value (QLearning.q self') ((0, 0, 0%Z)%nat, 1%nat)
      = 0 + (1 # 10) * (7 + (9 # 10) * 0 - 0).
Proof.
  destruct (update_td_rule (0, 0, 0%Z)%nat 1 7 (1, 0, 0%Z)%nat Demo.ctrl0)
    as (self' & a' & Hrun & _ & _ & Hval & _).
  - vm_compute. discriminate.
  - exists self'. split; [exact Hrun|]. exact Hval.
Defined.

(** C4. With a non-empty action list of length [n], [choose(s)] first draws
    [u = random()].  If [u < ε] it returns the draw of [randrange(n)], an index
    below [n], and the controller as it was.  Otherwise it returns the lowest
    index whose value [Q(s, ·)] is greatest among the indices below [n] (0 for
    an unseen entry), and draws nothing more.  In both cases every value read
    from the table, the action list and the hyperparameters are after the call
    what they were before. *)
Theorem choose_epsilon_greedy `{PyRuntime G} (s : State) (self : QLearning.t) (g : G) :
  QLearning.actions self ≠ [] →
  let n := length (QLearning.actions self) in
  let u := (random_random g).1 in
  let g1 := (random_random g).2 in
  (u < QLearning.ε self →
     QLearning.choose s self g
     = Ok ((random_randrange n g1).1, self, (random_randrange n g1).2)
     ∧ ((random_randrange n g1).1 < n)%nat)
  ∧ (QLearning.ε self <= u →
     ∃ a self',
       QLearning.choose s self g = Ok (a, self', g1)
       ∧ (a < n)%nat
       ∧ (∀ j, (j < n)%nat →
            QLearning.value (QLearning.q self) (s, j)
            <= QLearning.value (QLearning.q self) (s, a))
       ∧ (∀ j, (j < a)%nat →
            QLearning.value (QLearning.q self) (s, j)
            < QLearning.value (QLearning.q self) (s, a))
       ∧ (∀ key, QLearning.value (QLearning.q self') key
                 = QLearning.value (QLearning.q self) key)
       ∧ QLearning.actions self' = QLearning.actions self
       ∧ (QLearning.α self', QLearning.γ self', QLearning.ε self')
         = (QLearning.α self, QLearning.γ self, QLearning.ε self)).
Proof.
  intros Hne n u g1. apply length_pos_of_ne_nil in Hne. fold n in Hne.
  unfold QLearning.choose. subst u g1. fold n.
  destruct (random_random g) as [u g1]. simpl. split.
  - intros Hu. apply Qltb_lt in Hu. rewrite Hu. split.
    + unfold py_randrange. destruct n; [lia|]. simpl.
      by destruct (random_randrange (S n) g1).
    + by apply random_randrange_range.
  - intros Hu. apply Qltb_ge in Hu. rewrite Hu.
    destruct (greedy_scan s n (QLearning.q self) (QLearning.q self) Hne)
      as (a & tbl' & Hmax & Ha & Hbest & Hfirst & Htbl); [done|].
    rewrite Hmax. simpl. eexists a, _. split; [reflexivity|]. by simpl.
Qed.

(** The greedy branch on the demo controller: the draw 9/10 is not below ε = 3/10. *)
Lemma choose_epsilon_greedy_witness :
  ∃ a self',
    QLearning.choose (0, 0, 0%Z)%nat Demo.ctrl0 true = Ok (a, self', false)
    ∧ (a < 4)%nat
    ∧ ∀ key, QLearning.value (QLearning.q self') key
             = QLearning.value (QLearning.q Demo.ctrl0) key.
Proof.
  destruct (choose_epsilon_greedy (0, 0, 0%Z)%nat Demo.ctrl0 true) as [_ Hgreedy].
  - vm_compute. discriminate.
  - destruct Hgreedy as (a & self' & Hrun & Ha & _ & _ & Htbl & _).
    + vm_compute. discriminate.
    + exists a, self'. split; [exact Hrun|]. split; [exact Ha | exact Htbl].
Defined.

(** The table itself is not left as it was by a greedy [choose]: the
    [defaultdict] reads store an explicit 0 for every unseen [(s, a)].  On the
    empty table of the demo controller, four entries appear. *)
Example choose_stores_defaults :
  ∃ a c',
    QLearning.choose (0, 0, 0%Z)%nat Demo.ctrl0 true = Ok (a, c', false)
    ∧ size (QLearning.q Demo.ctrl0) = 0%nat
    ∧ size (QLearning.q c') = 4%nat
    ∧ a = 0%nat.
Proof. eexists _, _. split; [reflexivity|]. by vm_compute. Qed.

(** ** Fuel

    Granting more fuel never changes an outcome other than [OutOfFuel]. *)

Lemma refines_refl {A} (r : outcome A) : r ⊑ r.
Proof. by right. Qed.

Lemma refines_bind {A B} (m1 m2 : outcome A) (f1 f2 : A → outcome B) :
  m1 ⊑ m2 → (∀ a, f1 a ⊑ f2 a) → (m1 ≫= f1) ⊑ (m2 ≫= f2).
Proof.
  intros [->| ->] Hf; [by left|]. destruct m2; simpl; [apply Hf | by right | by left].
Qed.

Lemma refines_Ok {A} (r1 r2 : outcome A) (a : A) : r1 ⊑ r2 → r1 = Ok a → r2 = Ok a.
Proof. intros [->| ->]; [discriminate | done]. Qed.

Create HintDb fuel.
#[local] Hint Resolve refines_refl : fuel.

Section fuel.
Context `{PyRuntime G}.

Lemma poisson_loop_mono n m :
  (n ≤ m)%nat → ∀ L p k g,
  TrafficGenerator.poisson_loop n L p k g ⊑ TrafficGenerator.poisson_loop m L p k g.
Proof.
  revert m. induction n as [|n IH]; intros m Hle L p k g; [by left|].
  destruct m as [|m]; [lia|]. simpl.
  destruct (random_random g) as [u g']. destruct (Qle_bool (p * u) L); auto with fuel lia.
Qed.

Lemma poisson_mono n m rate dt g :
  (n ≤ m)%nat →
  TrafficGenerator.poisson n rate dt g ⊑ TrafficGenerator.poisson m rate dt g.
Proof. intros. by apply poisson_loop_mono. Qed.

Lemma generate_loop_mono n m rs dt g :
  (n ≤ m)%nat →
  TrafficGenerator.generate_loop n rs dt g ⊑ TrafficGenerator.generate_loop m rs dt g.
Proof.
  intros Hle. revert g.
  induction rs as [|[d rate] rs IH]; intros g; simpl; [auto with fuel|].
  apply refines_bind; [by apply poisson_mono|]. intros [k g1].
  apply refines_bind; [apply IH|]. intros [arrivals g2]. auto with fuel.
Qed.

Lemma generate_mono n m self dt time g :
  (n ≤ m)%nat →
  TrafficGenerator.generate n self dt time g ⊑ TrafficGenerator.generate m self dt time g.
Proof. apply generate_loop_mono. Qed.

Lemma arrive_loop_mono n m :
  (n ≤ m)%nat → ∀ self tt tend g,
  Simulation.arrive_loop n self tt tend g ⊑ Simulation.arrive_loop m self tt tend g.
Proof.
  revert m. induction n as [|n IH]; intros m Hle self tt tend g; [by left|].
  destruct m as [|m]; [lia|]. simpl. destruct (Qltb tt tend); [|auto with fuel].
  apply refines_bind; [apply generate_mono; lia|]. intros [arrivals g1].
  apply IH. lia.
Qed.

Lemma step_mono n m train st :
  (n ≤ m)%nat → Simulation.step n train st ⊑ Simulation.step m train st.
Proof.
  intros Hle. unfold Simulation.step.
  apply refines_bind; [auto with fuel|]. intros [[a ctrl1] g1].
  apply refines_bind; [auto with fuel|]. intros [phase dur].
  apply refines_bind; [by apply arrive_loop_mono|]. intros [sim1 g2].
  auto with fuel.
Qed.

Lemma run_loop_mono n m :
  (n ≤ m)%nat → ∀ max_t train st,
  Simulation.run_loop n max_t train st ⊑ Simulation.run_loop m max_t train st.
Proof.
  revert m. induction n as [|n IH]; intros m Hle max_t train st; [by left|].
  destruct m as [|m]; [lia|]. simpl. destruct (Qltb _ max_t); [|auto with fuel].
  apply refines_bind; [apply step_mono; lia|]. intros st'. apply IH. lia.
Qed.

Lemma run_mono n m self c max_t train g :
  (n ≤ m)%nat →
  Simulation.run n self c max_t train g ⊑ Simulation.run m self c max_t train g.
Proof.
  intros Hle. unfold Simulation.run.
  apply refines_bind; [by apply run_loop_mono|]. auto with fuel.
Qed.


End fuel.

(** ** The average wait *)

Lemma stamped_served time o : stamped time o → served o.
Proof. intros (v & -> & Hd). by exists v, time. Qed.

Lemma served_departed_at vs :
  Forall served vs → ∃ ads, vs = departed_at <$> ads.
Proof.
  induction 1 as [|o vs (v & d & -> & Hd) _ (ads & ->)]; [by exists []|].
  exists ((arrival_time v, d) :: ads). simpl. unfold departed_at at 1. simpl.
  destruct v as [a dep]. simpl in Hd. by subst dep.
Qed.

Lemma sum_waits_departed_at ads acc :
  ∃ total, Simulation.sum_waits acc (departed_at <$> ads) = Ok total
           ∧ total == acc + foldr Qplus 0 ((λ ad, ad.2 - ad.1) <$> ads).
Proof.
  revert acc. induction ads as [|[a d] ads IH]; intros acc; simpl.
  - exists acc. split; [done|]. ring.
  - destruct (IH (acc + (d - a))) as (total & Hsum & Htotal).
    exists total. split; [done|]. rewrite Htotal. symmetry. apply Qplus_assoc.
Qed.

(** The epilogue of [run] on a list of served vehicles: no fault, and the
    mean of the waits. *)
Lemma average_wait_departed_at ads :
  ∃ avg, Simulation.average_wait (departed_at <$> ads) = Ok avg
         ∧ avg == mean ((λ ad, ad.2 - ad.1) <$> ads)
         ∧ (ads = [] → avg = 0).
Proof.
  destruct ads as [|ad ads]; [by exists 0|].
  destruct (sum_waits_departed_at (ad :: ads) 0) as (total & Hsum & Htotal).
  exists (total / inject_Z (Z.of_nat (length (ad :: ads)))).
  split; [|split; [|done]].
  - unfold Simulation.average_wait. change (departed_at <$> ad :: ads)
      with (departed_at ad :: (departed_at <$> ads)) in *.
    rewrite Hsum. simpl. by rewrite length_fmap.
  - rewrite Htotal, Qplus_0_l.
    replace (length (ad :: ads)) with (length ((λ ad, ad.2 - ad.1) <$> ad :: ads))
      by apply length_fmap.
    apply Qeq_refl.
Qed.

(** ** Termination of the decision loop *)

(** Any quantity is reached by enough steps of a positive size. *)
Lemma steps_reach (x d : Q) : 0 < d → ∃ k : nat, x <= inject_Z (Z.of_nat k) * d.
Proof.
  intros Hd. exists (Z.to_nat (Qceiling (x / d))).
  assert (Hc : x / d <= inject_Z (Z.of_nat (Z.to_nat (Qceiling (x / d))))).
  { eapply Qle_trans; [apply Qle_ceiling|]. rewrite <- Zle_Qle. lia. }
  apply (Qmult_le_compat_r _ _ d) in Hc; [|by apply Qlt_le_weak].
  eapply Qle_trans; [|exact Hc].
  assert (Heq : x / d * d == x) by (field; intros Hz; rewrite Hz in Hd; by apply Qlt_irrefl in Hd).
  rewrite Heq. apply Qle_refl.
Qed.

Lemma inject_succ (k : nat) (d : Q) :
  inject_Z (Z.of_nat (S k)) * d == inject_Z (Z.of_nat k) * d + d.
Proof. rewrite Nat2Z.inj_succ. unfold Z.succ. rewrite inject_Z_plus. ring. Qed.

Lemma max_duration_ge (acts : list (Phase * Q)) pd :
  pd ∈ acts → pd.2 <= max_duration acts.
Proof.
  induction 1 as [|pd pd' acts _ IH]; simpl.
  - apply Q.le_max_l.
  - eapply Qle_trans; [exact IH | apply Q.le_max_r].
Qed.

(** A list of positive durations has a positive lower bound. *)
Lemma min_duration (acts : list (Phase * Q)) :
  (∀ pd, pd ∈ acts → 0 < pd.2) → ∃ m, 0 < m ∧ ∀ pd, pd ∈ acts → m <= pd.2.
Proof.
  induction acts as [|pd acts IH]; intros Hpos.
  - exists 1. split; [reflexivity|]. intros pd Hin. by apply elem_of_nil in Hin.
  - destruct IH as (m & Hm & Hmin); [intros; apply Hpos; by right|].
    exists (Qmin pd.2 m). split.
    + apply Q.min_glb_lt; [apply Hpos; by left | done].
    + intros pd' [->|Hin]%elem_of_cons; [apply Q.le_min_l|].
      eapply Qle_trans; [apply Q.le_min_r | by apply Hmin].
Qed.

Section termination.
Context `{PyRuntime G}.

Lemma generate_loop_total rs dt :
  sampler_total rs dt →
  ∀ g, ∃ n arrivals g', TrafficGenerator.generate_loop n rs dt g = Ok (arrivals, g').
Proof.
  induction rs as [|[d rate] rs IH]; intros Htotal g.
  { by exists O, [], g. }
  destruct (Htotal d rate g) as (n1 & k & g1 & Hk); [by left|].
  destruct (IH (λ d' r' g' Hin, Htotal d' r' g' (list_elem_of_further _ _ _ Hin)) g1)
    as (n2 & arrivals & g2 & Harr).
  exists (n1 `max` n2), ((d, k) :: arrivals), g2. simpl.
  rewrite (refines_Ok _ _ _ (poisson_mono n1 (n1 `max` n2) rate dt g (Nat.le_max_l _ _)) Hk).
  simpl.
  by rewrite (refines_Ok _ _ _ (generate_loop_mono n2 (n1 `max` n2) rs dt g1
                                  (Nat.le_max_r _ _)) Harr).
Qed.

Lemma set_inter_inter (self : Simulation.t) :
  Simulation.set_inter (Simulation.inter self) self = self.
Proof. by destruct self. Qed.

Lemma arrive_loop_total (self : Simulation.t) (tend : Q) :
  0 < Simulation.dt self →
  sampler_total (TrafficGenerator.rates (Simulation.gen self)) (Simulation.dt self) →
  ∀ (k : nat) (tt : Q) (i : Intersection.t) (g : G),
    tend - tt <= inject_Z (Z.of_nat k) * Simulation.dt self →
    ∃ n i' g',
      Simulation.arrive_loop n (Simulation.set_inter i self) tt tend g
      = Ok (Simulation.set_inter i' self, g').
Proof.
  intros Hdt Htotal. induction k as [|k IH]; intros tt i g Hk.
  - exists 1%nat, i, g. simpl.
    assert (Hge : Qltb tt tend = false).
    { apply Qltb_ge. change (inject_Z (Z.of_nat 0)) with 0 in Hk. lra. }
    by rewrite Hge.
  - destruct (Qltb tt tend) eqn:Hlt; [|exists 1%nat, i, g; simpl; by rewrite Hlt].
    destruct (generate_loop_total _ _ Htotal g) as (n1 & arrivals & g1 & Hgen).
    destruct (IH (tt + Simulation.dt self) (Simulation.add_arrivals arrivals tt i) g1)
      as (n2 & i' & g' & Hloop).
    { rewrite inject_succ in Hk. lra. }
    exists (S (n1 `max` n2)), i', g'. simpl. rewrite Hlt.
    unfold TrafficGenerator.generate. simpl.
    rewrite (refines_Ok _ _ _ (generate_loop_mono n1 (n1 `max` n2) _ _ g
                                 (Nat.le_max_l _ _)) Hgen). simpl.
    eapply refines_Ok; [apply (arrive_loop_mono n2), Nat.le_max_r | exact Hloop].
Qed.

Lemma choose_total (s : State) (c : QLearning.t) (g : G) :
  QLearning.actions c ≠ [] →
  ∃ a c' g',
    QLearning.choose s c g = Ok (a, c', g')
    ∧ (a < length (QLearning.actions c))%nat
    ∧ QLearning.actions c' = QLearning.actions c.
Proof.
  intros Hne%length_pos_of_ne_nil. unfold QLearning.choose.
  destruct (random_random g) as [u g1]. destruct (Qltb u (QLearning.ε c)).
  - pose proof (random_randrange_range _ g1 Hne) as Hlt.
    unfold py_randrange. destruct (length (QLearning.actions c)) as [|n] eqn:Hn; [lia|].
    simpl. destruct (random_randrange (S n) g1) as [a g2]. by exists a, c, g2.
  - destruct (greedy_scan s _ (QLearning.q c) (QLearning.q c) Hne)
      as (a & tbl' & Hmax & Ha & _); [done|].
    rewrite Hmax. simpl. by eexists a, _, g1.
Qed.

Lemma update_total (s : State) (a : nat) (r : Q) (ns : State) (c : QLearning.t) :
  QLearning.actions c ≠ [] →
  ∃ c', QLearning.update s a r ns c = Ok c' ∧ QLearning.actions c' = QLearning.actions c.
Proof.
  intros Hne%length_pos_of_ne_nil. unfold QLearning.update.
  pose proof (getitem_snd (s, a) (QLearning.q c)) as Htbl1.
  destruct (QLearning.getitem (s, a) (QLearning.q c)) as [cur tbl1]. simpl in Htbl1.
  destruct (greedy_scan ns _ (QLearning.q c) tbl1 Hne Htbl1) as (a' & tbl2 & Hmax & _).
  rewrite Hmax. simpl. by eexists.
Qed.

End termination.

Section run_total.
Context `{PyRuntime G}.
Variables (rs : list (Dir * Q)) (dt : Q) (acts : list (Phase * Q)).
Hypothesis dt_pos : 0 < dt.
Hypothesis draws_halt : sampler_total rs dt.
Hypothesis acts_ne : acts ≠ [].

(** A decision step of a configured run returns: it advances the clock by the
    whole duration of one of the actions and appends what [serve] returned,
    stamped with the new time. *)
Lemma step_total (train : bool) (st : Simulation.Locals G) :
  configured rs dt acts st →
  ∃ n st' pd out,
    Simulation.step n train st = Ok st'
    ∧ pd ∈ acts
    ∧ Simulation.now st' = Simulation.now st + pd.2
    ∧ configured rs dt acts st'
    ∧ Simulation.departed_list st' = Simulation.departed_list st ++ out
    ∧ Forall (stamped (Simulation.now st')) out.
Proof.
  intros (Hrs & Hdt & Hacts). unfold Simulation.step.
  destruct (choose_total
              (Sensor.read (Simulation.sensor (Simulation.sim st))
                           (Simulation.inter (Simulation.sim st)))
              (Simulation.ctrl st) (Simulation.rng st))
    as (a & c1 & g1 & Hch & Ha & Hacts1); [by rewrite Hacts|].
  rewrite Hch. simpl.
  destruct (lookup_lt_is_Some_2 (QLearning.actions c1) a) as [[phase dur] Hpd];
    [by rewrite Hacts1|].
  rewrite Hpd. simpl.
  destruct (steps_reach (Simulation.now st + dur - Simulation.now st)
                        (Simulation.dt (Simulation.sim st))) as [k Hk];
    [by rewrite Hdt|].
  destruct (arrive_loop_total (Simulation.sim st) (Simulation.now st + dur)) with
    (k := k) (tt := Simulation.now st) (i := Simulation.inter (Simulation.sim st)) (g := g1)
    as (n & i' & g2 & Harr); [by rewrite Hdt | by rewrite Hrs, Hdt | done |].
  rewrite set_inter_inter in Harr. exists n. rewrite Harr. simpl.
  destruct (serve_spec phase dur (Simulation.now st + dur) i')
    as (d1 & d2 & out & i2 & _ & _ & Hserve & _ & _ & _ & _ & Hout).
  rewrite Hserve. simpl.
  assert (Hin : (phase, dur) ∈ acts).
  { rewrite <- Hacts, <- Hacts1. by eapply list_elem_of_lookup_2. }
  destruct train.
  - destruct (update_total
                (Sensor.read (Simulation.sensor (Simulation.sim st))
                             (Simulation.inter (Simulation.sim st)))
                a (inject_Z (Simulation.reward_of out i2))
                (Sensor.read (Simulation.sensor (Simulation.sim st)) i2) c1)
      as (c2 & Hup & Hacts2); [by rewrite Hacts1, Hacts|].
    rewrite Hup. simpl. eexists _, (phase, dur), out.
    split; [reflexivity|]. simpl. unfold configured. simpl.
    rewrite Hacts2, Hacts1. done.
  - eexists _, (phase, dur), out.
    split; [reflexivity|]. simpl. unfold configured. simpl.
    rewrite Hacts1. done.
Qed.

(** The decision loop of a configured run returns once the clock has reached
    [max_t]; the clock at exit is the clock at entry plus the whole durations
    of the steps taken, and it stays within one action's duration of [max_t]
    if it started there. *)
Lemma run_loop_total (max_t : Q) (train : bool) (m : Q) :
  0 < m →
  (∀ pd, pd ∈ acts → m <= pd.2) →
  ∀ (k : nat) (st : Simulation.Locals G),
    configured rs dt acts st →
    max_t - Simulation.now st <= inject_Z (Z.of_nat k) * m →
    ∃ n st' durs,
      Simulation.run_loop n max_t train st = Ok st'
      ∧ configured rs dt acts st'
      ∧ max_t <= Simulation.now st'
      ∧ (Simulation.now st < max_t + max_duration acts →
         Simulation.now st' < max_t + max_duration acts)
      ∧ (Forall served (Simulation.departed_list st) →
         Forall served (Simulation.departed_list st'))
      ∧ Forall (λ d, d ∈ acts.*2) durs
      ∧ Simulation.now st' = fold_left Qplus durs (Simulation.now st).
Proof.
  intros Hm Hmin. induction k as [|k IH]; intros st Hconf Hk.
  - exists 1%nat, st, []. simpl.
    assert (Hge : Qltb (Simulation.now st) max_t = false).
    { apply Qltb_ge. change (inject_Z (Z.of_nat 0)) with 0 in Hk. lra. }
    rewrite Hge. apply Qltb_ge in Hge. done.
  - destruct (Qltb (Simulation.now st) max_t) eqn:Hlt.
    2:{ exists 1%nat, st, []. simpl. rewrite Hlt. apply Qltb_ge in Hlt. done. }
    apply Qltb_lt in Hlt.
    destruct (step_total train st Hconf)
      as (n1 & st1 & pd & out & Hstep & Hpd & Hnow & Hconf1 & Hdep & Hout).
    pose proof (Hmin pd Hpd) as Hpd_min.
    pose proof (max_duration_ge acts pd Hpd) as Hpd_max.
    destruct (IH st1 Hconf1)
      as (n2 & st' & durs & Hloop & Hconf' & Hreach & Hbound & Hserved & Hdurs & Hclock).
    { rewrite Hnow. rewrite inject_succ in Hk. lra. }
    exists (S (n1 `max` n2)), st', (pd.2 :: durs).
    split; [|split; [done|split; [done|split; [|split; [|split]]]]].
    + simpl. apply Qltb_lt in Hlt. rewrite Hlt.
      rewrite (refines_Ok _ _ _ (step_mono n1 (n1 `max` n2) train st (Nat.le_max_l _ _))
                 Hstep). simpl.
      eapply refines_Ok; [apply (run_loop_mono n2), Nat.le_max_r | exact Hloop].
    + intros _. apply Hbound. rewrite Hnow. lra.
    + intros Hs. apply Hserved. rewrite Hdep. apply Forall_app. split; [done|].
      eapply Forall_impl; [exact Hout|]. apply stamped_served.
    + constructor; [|done]. apply list_elem_of_fmap. by exists pd.
    + simpl. by rewrite <- Hnow.
Qed.

End run_total.

(** ** Simulation.run *)

Section run_returns.
Context `{PyRuntime G}.

(** A run on a well-formed configuration (positive [dt], a non-empty action
    list of positive durations, Poisson draws that halt) returns; the lemma
    collects what the exit state and the returned dict satisfy. *)
Lemma run_total (self : Simulation.t) (c : QLearning.t) (max_t : Q) (train : bool) (g : G) :
  0 < Simulation.dt self →
  sampler_total (TrafficGenerator.rates (Simulation.gen self)) (Simulation.dt self) →
  QLearning.actions c ≠ [] →
  (∀ pd, pd ∈ QLearning.actions c → 0 < pd.2) →
  ∃ fuel r st ads,
    Simulation.run fuel self c max_t train g = Ok (r, st)
    ∧ max_t <= Simulation.now st
    ∧ (0 <= max_t → Simulation.now st < max_t + max_duration (QLearning.actions c))
    ∧ Simulation.departed_list st = departed_at <$> ads
    ∧ Simulation.departed r = length ads
    ∧ Simulation.avg_wait r == mean ((λ ad, ad.2 - ad.1) <$> ads)
    ∧ (ads = [] → Simulation.avg_wait r = 0)
    ∧ Simulation.reward r = Simulation.total_r st
    ∧ ∃ durs, Forall (λ d, d ∈ (QLearning.actions c).*2) durs
              ∧ Simulation.now st = fold_left Qplus durs 0.
Proof.
  intros Hdt Hdraws Hne Hpos.
  destruct (min_duration _ Hpos) as (m & Hm & Hmin).
  destruct (steps_reach (max_t - 0) m Hm) as [k Hk].
  destruct (run_loop_total _ _ _ Hdt Hdraws Hne max_t train m Hm Hmin k
              (Simulation.entry self c g))
    as (n & st & durs & Hloop & _ & Hreach & Hbound & Hserved & Hdurs & Hclock);
    [done | done |].
  destruct (served_departed_at (Simulation.departed_list st)) as [ads Hads];
    [apply Hserved; constructor|].
  destruct (average_wait_departed_at ads) as (avg & Havg & Hmean & Hzero).
  exists n, (Simulation.mkResult (length ads) avg (Simulation.total_r st)), st, ads.
  split; [|split; [done|split; [|repeat (split; [done|]); by exists durs]]].
  - unfold Simulation.run. rewrite Hloop. simpl. unfold Simulation.result_of.
    rewrite Hads, Havg. simpl. by rewrite length_fmap.
  - intros Hmax. apply Hbound. simpl.
    destruct (QLearning.actions c) as [|pd acts] eqn:Hacts; [done|].
    assert (Hin : pd ∈ pd :: acts) by by left.
    pose proof (Hpos pd Hin). pose proof (max_duration_ge _ pd Hin). lra.
Qed.

End run_returns.




Lemma demo_draws_halt :
  sampler_total (TrafficGenerator.rates (Simulation.gen Demo.sim0)) (Simulation.dt Demo.sim0).
Proof.
  intros d rate g Hin. simpl in Hin. unfold Demo.rates in Hin.
  repeat (apply elem_of_cons in Hin as [[= -> ->]|Hin]);
    [..|by apply elem_of_nil in Hin];
    destruct g; (eexists 3%nat, _, _; vm_compute; reflexivity).
Qed.


Lemma demo_durations_pos : ∀ pd, pd ∈ QLearning.actions Demo.ctrl0 → 0 < pd.2.
Proof.
  intros pd Hin. simpl in Hin. unfold Demo.actions in Hin.
  repeat (apply elem_of_cons in Hin as [->|Hin]); [..|by apply elem_of_nil in Hin];
    reflexivity.
Qed.




(** ** Reproducibility

    Two runs of the same configuration whose generators yield the same draws
    (as two generators seeded alike do) go through the same states.  The
    generators may even be different implementations: [R] relates the states
    of one to the states of the other. *)

Lemma same_outcome_bind {A1 A2 B1 B2} (P : A1 → A2 → Prop) (Q' : B1 → B2 → Prop)
    (m1 : outcome A1) (m2 : outcome A2) (f1 : A1 → outcome B1) (f2 : A2 → outcome B2) :
  same_outcome P m1 m2 →
  (∀ a b, P a b → same_outcome Q' (f1 a) (f2 b)) →
  same_outcome Q' (m1 ≫= f1) (m2 ≫= f2).
Proof. destruct m1, m2; simpl; try done. intros HP Hf. by apply Hf. Qed.

Lemma same_outcome_bind_eq {A B1 B2} (Q' : B1 → B2 → Prop)
    (m : outcome A) (f1 : A → outcome B1) (f2 : A → outcome B2) :
  (∀ a, same_outcome Q' (f1 a) (f2 a)) →
  same_outcome Q' (m ≫= f1) (m ≫= f2).
Proof. destruct m; simpl; auto. Qed.

Section reproducibility.
Context {G1 G2 : Type} {H1 : PyRuntime G1} {H2 : PyRuntime G2}.
Variable R : G1 → G2 → Prop.
Hypothesis same_exp : ∀ x, @math_exp G1 H1 x = @math_exp G2 H2 x.
Hypothesis same_random : ∀ g1 g2, R g1 g2 → paired R (random_random g1) (random_random g2).
Hypothesis same_randrange : ∀ n g1 g2, R g1 g2 →
  paired R (random_randrange n g1) (random_randrange n g2).

Lemma poisson_loop_same fuel : ∀ L p k g1 g2,
  R g1 g2 →
  same_outcome (paired R) (TrafficGenerator.poisson_loop fuel L p k g1)
                          (TrafficGenerator.poisson_loop fuel L p k g2).
Proof.
  induction fuel as [|fuel IH]; intros L p k g1 g2 HR; simpl; [done|].
  destruct (same_random g1 g2 HR) as [Hu HR'].
  destruct (random_random g1) as [u1 g1'], (random_random g2) as [u2 g2'].
  simpl in Hu, HR'. subst u2.
  destruct (Qle_bool (p * u1) L); [done | by apply IH].
Qed.

Lemma generate_loop_same fuel rs dt : ∀ g1 g2,
  R g1 g2 →
  same_outcome (paired R) (TrafficGenerator.generate_loop fuel rs dt g1)
                          (TrafficGenerator.generate_loop fuel rs dt g2).
Proof.
  induction rs as [|[d rate] rs IH]; intros g1 g2 HR; simpl; [done|].
  eapply same_outcome_bind.
  { unfold TrafficGenerator.poisson. rewrite same_exp. by apply poisson_loop_same. }
  intros [k g1'] [k' g2'] [Hk HR']. simpl in Hk, HR'. subst k'.
  eapply same_outcome_bind; [by apply IH|].
  intros [arr g1''] [arr' g2''] [Harr HR'']. simpl in Harr, HR''. by subst arr'.
Qed.

Lemma arrive_loop_same fuel : ∀ self tt tend g1 g2,
  R g1 g2 →
  same_outcome (paired R) (Simulation.arrive_loop fuel self tt tend g1)
                          (Simulation.arrive_loop fuel self tt tend g2).
Proof.
  induction fuel as [|fuel IH]; intros self tt tend g1 g2 HR; simpl; [done|].
  destruct (Qltb tt tend); [|done].
  eapply same_outcome_bind; [by apply generate_loop_same|].
  intros [arr g1'] [arr' g2'] [Harr HR']. simpl in Harr, HR'. subst arr'.
  by apply IH.
Qed.

Lemma choose_same s c g1 g2 :
  R g1 g2 →
  same_outcome (paired R) (QLearning.choose s c g1) (QLearning.choose s c g2).
Proof.
  intros HR. unfold QLearning.choose.
  destruct (same_random g1 g2 HR) as [Hu HR'].
  destruct (random_random g1) as [u1 g1'], (random_random g2) as [u2 g2'].
  simpl in Hu, HR'. subst u2.
  destruct (Qltb u1 (QLearning.ε c)).
  - unfold py_randrange. destruct (length (QLearning.actions c)) as [|n]; [done|].
    simpl. destruct (same_randrange (S n) g1' g2' HR') as [Ha HR''].
    destruct (random_randrange (S n) g1') as [a1 g1''].
    destruct (random_randrange (S n) g2') as [a2 g2'']. simpl in *. by subst a2.
  - destruct (py_max_key _ _ _ _) as [[[a k] tbl]| |]; done.
Qed.

Lemma step_same fuel train st1 st2 :
  same_locals R st1 st2 →
  same_outcome (same_locals R) (Simulation.step fuel train st1)
                               (Simulation.step fuel train st2).
Proof.
  destruct st1 as [t1 dep1 tot1 sim1 c1 g1], st2 as [t2 dep2 tot2 sim2 c2 g2].
  intros (Ht & Hdep & Htot & Hsim & Hc & HR). simpl in *. subst t2 dep2 tot2 sim2 c2.
  unfold Simulation.step. simpl.
  eapply same_outcome_bind; [by apply choose_same|].
  intros [[a c'] g1'] [ac g2'] [Hac HR']. simpl in Hac, HR'. subst ac.
  apply same_outcome_bind_eq. intros [phase dur].
  eapply same_outcome_bind; [by apply arrive_loop_same|].
  intros [sim' g1''] [sim'' g2''] [Hs HR'']. simpl in Hs, HR''. subst sim''.
  apply same_outcome_bind_eq. intros [out i2].
  apply same_outcome_bind_eq. intros c2. by simpl.
Qed.

Lemma run_loop_same fuel max_t train : ∀ st1 st2,
  same_locals R st1 st2 →
  same_outcome (same_locals R) (Simulation.run_loop fuel max_t train st1)
                               (Simulation.run_loop fuel max_t train st2).
Proof.
  induction fuel as [|fuel IH]; intros st1 st2 Hst; simpl; [done|].
  destruct Hst as (Ht & Hrest). rewrite Ht.
  destruct (Qltb (Simulation.now st2) max_t); [|by split].
  eapply same_outcome_bind; [by apply step_same; split|]. by apply IH.
Qed.

(** Two runs of the same configuration and starting state, from generator
    states that yield the same draws, have the same outcome for every fuel and
    every [max_t].  The embedding threads the generator of the [random] module
    through every draw, so this states how the model uses the generator; it
    does not establish that the Python program has no other source of
    nondeterminism. *)
Lemma run_reproducible (fuel : nat) (self : Simulation.t) (c : QLearning.t)
    (max_t : Q) (train : bool) (g1 : G1) (g2 : G2) :
  R g1 g2 →
  same_outcome (λ x y, x.1 = y.1 ∧ same_locals R x.2 y.2)
    (Simulation.run fuel self c max_t train g1)
    (Simulation.run fuel self c max_t train g2).
Proof.
  intros HR. unfold Simulation.run.
  eapply same_outcome_bind; [by apply run_loop_same|].
  intros st1 st2 Hst. unfold Simulation.result_of.
  destruct Hst as (Ht & Hdep & Htot & Hrest). rewrite Hdep, Htot.
  apply same_outcome_bind_eq. intros r. simpl. split; [done|].
  unfold same_locals. tauto.
Qed.

End reproducibility.

(** * Further properties of the code *)

(** ** Intersection.serve *)

(** The [serve] loop in full: which vehicles leave, in what order, how many,
    and how the two lanes compare afterwards. *)
Lemma serve_loop_heads n d1 d2 time i passed :
  d1 ≠ d2 →
  let q1 := Lane.queue (Intersection.lanes i d1) in
  let q2 := Lane.queue (Intersection.lanes i d2) in
  ∃ out i' k1 k2,
    Intersection.serve_loop n [d1; d2] time i passed = Ok (passed ++ out, i')
    ∧ Lane.queue (Intersection.lanes i' d1) = drop k1 q1
    ∧ Lane.queue (Intersection.lanes i' d2) = drop k2 q2
    ∧ (k1 ≤ length q1)%nat ∧ (k2 ≤ length q2)%nat
    ∧ out ≡ₚ (depart time <$> take k1 q1) ++ (depart time <$> take k2 q2)
    ∧ (depart time <$> take k1 q1) `sublist_of` out
    ∧ (depart time <$> take k2 q2) `sublist_of` out
    ∧ length out = (n `min` (length q1 + length q2))%nat
    ∧ (gap (length q1 - k1) (length q2 - k2)
       ≤ 1 `max` (gap (length q1) (length q2) - length out))%nat.
Proof.
  intros Hne. revert i passed. induction n as [|n IH]; intros i passed q1 q2.
  { exists [], i, O, O. rewrite app_nil_r. simpl. rewrite !Nat.sub_0_r.
    repeat split; try done; try lia. }
  rewrite serve_loop_step.
  assert (Hpick : pick i d1 d2 = d2 ∧ (length q1 < length q2)%nat
                  ∨ pick i d1 d2 = d1 ∧ (length q2 ≤ length q1)%nat).
  { unfold pick, Lane.qlen. fold q1 q2.
    destruct (length q1 <? length q2)%nat eqn:Hlt;
      [left; apply Nat.ltb_lt in Hlt | right; apply Nat.ltb_ge in Hlt]; done. }
  destruct Hpick as [[-> Hlt]|[-> Hlt]].
  - (* the second lane is longer: its head leaves *)
    fold q2. destruct q2 as [|v rest] eqn:Hq; [simpl in Hlt; lia|].
    destruct (IH (Intersection.set_lane d2 (Lane.mk rest) i)
                 (passed ++ [Some (set_depart_time time v)]))
      as (out & i' & k1 & k2 & Hrun & Hd1 & Hd2 & Hk1 & Hk2 & Hperm & Hs1 & Hs2 & Hlen & Hgap).
    rewrite lanes_set_lane_eq in *. rewrite lanes_set_lane_ne in * by done.
    fold q1 in Hd1, Hk1, Hperm, Hs1, Hlen, Hgap. simpl in *.
    exists (depart time v :: out), i', k1, (S k2). rewrite Hrun, <- app_assoc.
    cbn -[Nat.min Nat.max].
    split; [done|]. split; [done|]. split; [done|]. split; [done|]. split; [lia|].
    split; [by rewrite Hperm, <- Permutation_middle|].
    split; [by apply sublist_cons|]. split; [by apply sublist_skip|].
    unfold gap in *. split; [rewrite ?Nat.add_succ_r; simpl; lia | lia].
  - (* the first lane is at least as long: its head leaves, if there is one *)
    fold q1. destruct q1 as [|v rest] eqn:Hq.
    { exists [], i, O, O. rewrite app_nil_r. simpl in *.
      assert (length q2 = O) as Hq2 by lia. rewrite Hq2.
      repeat split; try done; try lia. vm_compute; lia. }
    destruct (IH (Intersection.set_lane d1 (Lane.mk rest) i)
                 (passed ++ [Some (set_depart_time time v)]))
      as (out & i' & k1 & k2 & Hrun & Hd1 & Hd2 & Hk1 & Hk2 & Hperm & Hs1 & Hs2 & Hlen & Hgap).
    rewrite lanes_set_lane_eq in *. rewrite lanes_set_lane_ne in * by done.
    fold q2 in Hd2, Hk2, Hperm, Hs2, Hlen, Hgap. simpl in *.
    exists (depart time v :: out), i', (S k1), k2. rewrite Hrun, <- app_assoc.
    cbn -[Nat.min Nat.max].
    split; [done|]. split; [done|]. split; [done|]. split; [lia|]. split; [done|].
    split; [by rewrite Hperm|].
    split; [by apply sublist_skip|]. split; [by apply sublist_cons|].
    unfold gap in *. split; [rewrite ?Nat.add_succ_r; simpl; lia | lia].
Qed.

Lemma serve_heads phase dt time i :
  ∃ d1 d2, Intersection.dirs_of phase = [d1; d2] ∧
  let q1 := Lane.queue (Intersection.lanes i d1) in
  let q2 := Lane.queue (Intersection.lanes i d2) in
  ∃ out i' k1 k2,
    Intersection.serve phase dt time i = Ok (out, i')
    ∧ Lane.queue (Intersection.lanes i' d1) = drop k1 q1
    ∧ Lane.queue (Intersection.lanes i' d2) = drop k2 q2
    ∧ (k1 ≤ length q1)%nat ∧ (k2 ≤ length q2)%nat
    ∧ out ≡ₚ (depart time <$> take k1 q1) ++ (depart time <$> take k2 q2)
    ∧ (depart time <$> take k1 q1) `sublist_of` out
    ∧ (depart time <$> take k2 q2) `sublist_of` out
    ∧ length out = (Z.to_nat (Intersection.capacity i dt) `min` (length q1 + length q2))%nat
    ∧ (gap (length q1 - k1) (length q2 - k2)
       ≤ 1 `max` (gap (length q1) (length q2) - length out))%nat.
Proof.
  destruct (dirs_of_pair phase) as (d1 & d2 & Hdirs & Hne).
  exists d1, d2. split; [done|]. unfold Intersection.serve. rewrite Hdirs.
  apply (serve_loop_heads _ d1 d2 time i [] Hne).
Qed.

(** X1. [serve] wastes no capacity: it returns exactly as many vehicles as the
    capacity [int(service_rate * dt)] allows (none when that is not positive)
    or, if fewer are waiting, every vehicle of the two active lanes. *)
Theorem serve_work_conserving (phase : Phase) (dt time : Q) (i : Intersection.t) :
  ∃ out i',
    Intersection.serve phase dt time i = Ok (out, i')
    ∧ length out
      = (Z.to_nat (Intersection.capacity i dt)
         `min` sum_list (map (Intersection.queue_lengths i) (Intersection.dirs_of phase)))%nat.
Proof.
  destruct (serve_heads phase dt time i)
    as (d1 & d2 & Hdirs & out & i' & k1 & k2 & Hrun & _ & _ & _ & _ & _ & _ & _ & Hlen & _).
  exists out, i'. split; [done|]. rewrite Hlen, Hdirs.
  unfold Intersection.queue_lengths, Lane.qlen. simpl. by rewrite Nat.add_0_r.
Qed.

(** X2. The vehicles [serve] returns are heads of the two active lanes: each
    active lane is left with what followed its first [k] vehicles, the list
    returned holds exactly those first vehicles of both lanes, each with its
    [depart_time] set to the [t] of the call, and the vehicles of one lane
    appear in it in their queue order. *)
Theorem serve_returns_heads (phase : Phase) (dt time : Q) (i : Intersection.t) :
  ∃ d1 d2 out i' k1 k2,
    Intersection.dirs_of phase = [d1; d2]
    ∧ Intersection.serve phase dt time i = Ok (out, i')
    ∧ Lane.queue (Intersection.lanes i' d1) = drop k1 (Lane.queue (Intersection.lanes i d1))
    ∧ Lane.queue (Intersection.lanes i' d2) = drop k2 (Lane.queue (Intersection.lanes i d2))
    ∧ out ≡ₚ (depart time <$> take k1 (Lane.queue (Intersection.lanes i d1)))
             ++ (depart time <$> take k2 (Lane.queue (Intersection.lanes i d2)))
    ∧ (depart time <$> take k1 (Lane.queue (Intersection.lanes i d1))) `sublist_of` out
    ∧ (depart time <$> take k2 (Lane.queue (Intersection.lanes i d2))) `sublist_of` out.
Proof.
  destruct (serve_heads phase dt time i)
    as (d1 & d2 & Hdirs & out & i' & k1 & k2 & Hrun & Hd1 & Hd2 & _ & _ & Hperm & Hs1 & Hs2 & _).
  by exists d1, d2, out, i', k1, k2.
Qed.

(** X3. Serving the longer lane first evens the two active lanes out: after
    the call their lengths differ by at most one, or by what they differed
    before minus the number of vehicles served, whichever is greater. *)
Theorem serve_evens_out (phase : Phase) (dt time : Q) (i : Intersection.t) :
  ∃ d1 d2 out i',
    Intersection.dirs_of phase = [d1; d2]
    ∧ Intersection.serve phase dt time i = Ok (out, i')
    ∧ (gap (Intersection.queue_lengths i' d1) (Intersection.queue_lengths i' d2)
       ≤ 1 `max` (gap (Intersection.queue_lengths i d1) (Intersection.queue_lengths i d2)
                  - length out))%nat.
Proof.
  destruct (serve_heads phase dt time i)
    as (d1 & d2 & Hdirs & out & i' & k1 & k2 & Hrun & Hd1 & Hd2 & _ & _ & _ & _ & _ & _ & Hgap).
  exists d1, d2, out, i'. split; [done|]. split; [done|].
  unfold Intersection.queue_lengths, Lane.qlen. by rewrite Hd1, Hd2, !length_drop.
Qed.

(** ** Sensor *)

Lemma disc_spec (self : Sensor.t) (v : Z) :
  (∃ b, Sensor.bins self !! Sensor.disc self v = Some b ∧ (v ≤ b)%Z ∧
        ∀ j b', (j < Sensor.disc self v)%nat → Sensor.bins self !! j = Some b' → (b' < v)%Z)
  ∨ (Sensor.disc self v = length (Sensor.bins self) ∧
     Forall (λ b, (b < v)%Z) (Sensor.bins self)).
Proof.
  unfold Sensor.disc. destruct (list_find _ _) as [[i b]|] eqn:Hfind.
  - apply list_find_Some in Hfind as (Hi & Hb & Hmin). left. exists b.
    repeat split; [done..|]. intros j b' Hj Hb'.
    specialize (Hmin j b' Hb' Hj). lia.
  - apply list_find_None in Hfind. right. split; [done|].
    eapply Forall_impl; [exact Hfind|]. simpl. intros; lia.
Qed.

Lemma disc_le_length (self : Sensor.t) (v : Z) :
  (Sensor.disc self v ≤ length (Sensor.bins self))%nat.
Proof.
  destruct (disc_spec self v) as [(b & Hb & _)|[-> _]]; [|done].
  apply lookup_lt_Some in Hb. lia.
Qed.

(** X4. [disc] is monotone, whatever the bin edges (sorted or not): a larger
    value never gets a smaller index. *)
Theorem disc_monotone (self : Sensor.t) (v w : Z) :
  (v ≤ w)%Z → (Sensor.disc self v ≤ Sensor.disc self w)%nat.
Proof.
  intros Hvw.
  destruct (disc_spec self w) as [(b & Hb & Hwb & _)|[-> _]]; [|apply disc_le_length].
  destruct (decide (Sensor.disc self v ≤ Sensor.disc self w)%nat) as [|Hgt]; [done|].
  exfalso. destruct (disc_spec self v) as [(b' & _ & _ & Hmin)|[_ Hall]].
  - assert (Hlt : (Sensor.disc self w < Sensor.disc self v)%nat) by lia.
    specialize (Hmin _ b Hlt Hb). lia.
  - rewrite Forall_forall in Hall.
    specialize (Hall b (list_elem_of_lookup_2 _ _ _ Hb)). simpl in Hall. lia.
Qed.

(** The indices of 5 and 12 on the default bins. *)
Lemma disc_monotone_witness :
  (Sensor.disc Sensor.new 5 ≤ Sensor.disc Sensor.new 12)%nat.
Proof. apply (disc_monotone Sensor.new 5 12). lia. Defined.

(** X5. The state [read] returns lies in a finite space: both bin indices
    are at most [len(bins)], and the third component is 1 when N+S exceeds
    E+W by more than 3, -1 when E+W exceeds N+S by more than 3, and 0
    otherwise.  [read] looks at the four queue lengths only. *)
Theorem read_state_space (self : Sensor.t) (i : Intersection.t) :
  let q := Intersection.queue_lengths i in
  let ns := (Z.of_nat (q North) + Z.of_nat (q South))%Z in
  let ew := (Z.of_nat (q East) + Z.of_nat (q West))%Z in
  let '(a, b, d) := Sensor.read self i in
  (a ≤ length (Sensor.bins self))%nat
  ∧ (b ≤ length (Sensor.bins self))%nat
  ∧ (d = 1 ∧ 3 < ns - ew ∨ d = -1 ∧ 3 < ew - ns ∨ d = 0 ∧ -3 ≤ ns - ew ≤ 3)%Z
  ∧ ∀ i', (∀ dir, Intersection.queue_lengths i' dir = Intersection.queue_lengths i dir) →
          Sensor.read self i' = Sensor.read self i.
Proof.
  intros q ns ew. unfold Sensor.read. fold q ns ew.
  split; [apply disc_le_length|]. split; [apply disc_le_length|]. split.
  - repeat case_bool_decide; lia.
  - intros i' Hq. by rewrite !Hq.
Qed.

(** ** TrafficGenerator *)

Section generator.
Context `{PyRuntime G}.

Lemma draws_S (n : nat) (g : G) :
  draws (S n) g = ((random_random g).1 :: (draws n (random_random g).2).1,
                   (draws n (random_random g).2).2).
Proof.
  simpl. destruct (random_random g) as [u g1]. simpl. by destruct (draws n g1).
Qed.

Lemma poisson_loop_least fuel : ∀ (L p : Q) (k0 : nat) (g : G) (k : nat) (g' : G),
  TrafficGenerator.poisson_loop fuel L p k0 g = Ok (k, g') →
  (k0 ≤ k)%nat
  ∧ ∃ us, draws (S (k - k0)) g = (us, g')
          ∧ fold_left Qmult us p <= L
          ∧ ∀ j, (0 < j ≤ k - k0)%nat → L < fold_left Qmult (take j us) p.
Proof.
  induction fuel as [|fuel IH]; intros L p k0 g k g';
    cbn [TrafficGenerator.poisson_loop]; [done|].
  rewrite (surjective_pairing (random_random g)).
  destruct (Qle_bool (p * (random_random g).1) L) eqn:Hcmp.
  - intros [= <- <-]. split; [done|]. rewrite Nat.sub_diag, draws_S. simpl.
    eexists. split; [reflexivity|]. split; [by apply Qle_bool_iff|]. intros j Hj. lia.
  - intros Hrun. destruct (IH _ _ _ _ _ _ Hrun) as (Hk & us & Hus & Hlast & Hbefore).
    split; [lia|]. replace (S (k - k0)) with (S (S (k - S k0))) by lia.
    rewrite draws_S, Hus. simpl.
    eexists. split; [reflexivity|]. split; [done|].
    intros j Hj. destruct j as [|j]; [lia|]. simpl.
    destruct j as [|j].
    + rewrite take_0. simpl. apply Qnot_le_lt. intros Hle.
      apply Qle_bool_iff in Hle. congruence.
    + apply Hbefore. lia.
Qed.

(** X6. The count [generate] draws for one direction is the least [k] such
    that the product of the first [k+1] values of [random.random()] is at most
    [exp(-rate*dt)]: the product of any fewer draws (at least one) is above it.
    The draw leaves the generator [k+1] values further. *)
Theorem poisson_least_index (fuel : nat) (rate dt : Q) (g : G) (k : nat) (g' : G) :
  TrafficGenerator.poisson fuel rate dt g = Ok (k, g') →
  ∃ us, draws (S k) g = (us, g')
        ∧ fold_left Qmult us 1 <= math_exp (- (rate * dt))
        ∧ ∀ j, (0 < j ≤ k)%nat → math_exp (- (rate * dt)) < fold_left Qmult (take j us) 1.
Proof.
  intros Hrun. apply poisson_loop_least in Hrun as (_ & us & Hus & Hlast & Hbefore).
  rewrite Nat.sub_0_r in *. by exists us.
Qed.

Lemma generate_loop_keys fuel rs dt : ∀ g arrivals g',
  TrafficGenerator.generate_loop fuel rs dt g = Ok (arrivals, g') →
  arrivals.*1 = rs.*1.
Proof.
  induction rs as [|[d rate] rs IH]; intros g arrivals g'; simpl.
  - by intros [= <- <-].
  - destruct (TrafficGenerator.poisson fuel rate dt g) as [[k g1]| |]; simpl; [|done..].
    destruct (TrafficGenerator.generate_loop fuel rs dt g1) as [[arr g2]| |] eqn:Hrest;
      simpl; [|done..].
    intros [= <- <-]. simpl. f_equal. by eapply IH.
Qed.

(** X7. Whenever [generate] returns, its result has one count for every
    direction of [rates], in the order of [rates], and does not depend on the
    time argument. *)
Theorem generate_keys (fuel : nat) (self : TrafficGenerator.t) (dt time : Q) (g : G)
    (arrivals : list (Dir * nat)) (g' : G) :
  TrafficGenerator.generate fuel self dt time g = Ok (arrivals, g') →
  arrivals.*1 = (TrafficGenerator.rates self).*1
  ∧ ∀ time', TrafficGenerator.generate fuel self dt time' g = Ok (arrivals, g').
Proof.
  intros Hrun. split; [by eapply generate_loop_keys|]. intros time'. exact Hrun.
Qed.

End generator.

(** The draw for North in the demo: 9/10 is above the threshold, 9/10 * 3/10
    is not, so one vehicle arrives and two values are consumed. *)
Lemma poisson_least_index_witness :
  ∃ us, draws 2 true = (us, true)
        ∧ fold_left Qmult us 1 <= math_exp (- ((20 # 100) * 1))
        ∧ ∀ j, (0 < j ≤ 1)%nat → math_exp (- ((20 # 100) * 1)) < fold_left Qmult (take j us) 1.
Proof. apply (poisson_least_index 3 (20 # 100) 1 true 1 true). reflexivity. Defined.

(** The arrivals of one micro-step of the demo. *)
Lemma generate_keys_witness :
  [(North, 1%nat); (South, 1%nat); (East, 1%nat); (West, 1%nat)].*1
  = (TrafficGenerator.rates (Simulation.gen Demo.sim0)).*1
  ∧ ∀ time', TrafficGenerator.generate 3 (Simulation.gen Demo.sim0) 1 time' true
             = Ok ([(North, 1); (South, 1); (East, 1); (West, 1)]%nat, true).
Proof.
  apply (generate_keys 3 (Simulation.gen Demo.sim0) 1 0 true). by vm_compute.
Defined.

(** ** QLearning *)

Lemma getitem_dom key tbl :
  dom (QLearning.getitem key tbl).2 = {[key]} ∪ dom tbl.
Proof.
  unfold QLearning.getitem. destruct (tbl !! key) eqn:Hk; simpl.
  - assert (Hin : key ∈ dom tbl) by (apply elem_of_dom; eauto).
    apply set_eq. intros x. rewrite elem_of_union, elem_of_singleton.
    split; [auto | by intros [->|?]].
  - by rewrite dom_insert_L.
Qed.

Lemma max_scan_dom (s : State) xs : ∀ best kbest tbl,
  dom (max_scan Qltb (λ a, QLearning.getitem (s, a)) best kbest xs tbl).2
  = dom tbl ∪ list_to_set ((λ a, (s, a)) <$> xs).
Proof.
  induction xs as [|y ys IH]; intros best kbest tbl; simpl;
    [by rewrite (right_id_L ∅ (∪))|].
  pose proof (getitem_dom (s, y) tbl) as Hdom.
  destruct (QLearning.getitem (s, y) tbl) as [ky tbl1]. simpl in Hdom.
  destruct (Qltb kbest ky);
    by rewrite IH, Hdom, (comm_L (∪) {[(s, y)]} (dom tbl)), (assoc_L (∪)).
Qed.

Lemma py_max_key_dom (s : State) xs tbl a k tbl' :
  py_max_key Qltb (λ a, QLearning.getitem (s, a)) xs tbl = Ok (a, k, tbl') →
  dom tbl' = dom tbl ∪ list_to_set ((λ a, (s, a)) <$> xs).
Proof.
  destruct xs as [|x xs]; [done|]. unfold py_max_key.
  pose proof (getitem_dom (s, x) tbl) as Hdom.
  destruct (QLearning.getitem (s, x) tbl) as [kx tbl1]. simpl in Hdom.
  intros [= Hscan].
  pose proof (max_scan_dom s xs x kx tbl1) as Hdom'. rewrite Hscan in Hdom'.
  simpl in Hdom'. rewrite Hdom', Hdom. simpl.
  by rewrite (comm_L (∪) {[(s, x)]} (dom tbl)), (assoc_L (∪)).
Qed.

(** [update] in full, on a non-empty action list. *)
Lemma update_inv (s : State) (a : nat) (r : Q) (ns : State) (c : QLearning.t) :
  QLearning.actions c ≠ [] →
  ∃ a' tbl2,
    QLearning.update s a r ns c
    = Ok (QLearning.set_q
            (<[(s, a) := QLearning.value (QLearning.q c) (s, a)
                         + QLearning.α c
                           * (r + QLearning.γ c * QLearning.value (QLearning.q c) (ns, a')
                              - QLearning.value (QLearning.q c) (s, a))]> tbl2) c)
    ∧ (a' < length (QLearning.actions c))%nat
    ∧ (∀ j, (j < length (QLearning.actions c))%nat →
         QLearning.value (QLearning.q c) (ns, j) <= QLearning.value (QLearning.q c) (ns, a'))
    ∧ (∀ key, QLearning.value tbl2 key = QLearning.value (QLearning.q c) key)
    ∧ dom tbl2 = dom (QLearning.q c) ∪ {[(s, a)]}
                 ∪ list_to_set ((λ j, (ns, j)) <$> seq 0 (length (QLearning.actions c))).
Proof.
  intros Hne%length_pos_of_ne_nil. unfold QLearning.update.
  pose proof (getitem_fst (s, a) (QLearning.q c)) as Hcur.
  pose proof (getitem_snd (s, a) (QLearning.q c)) as Htbl1.
  pose proof (getitem_dom (s, a) (QLearning.q c)) as Hdom1.
  destruct (QLearning.getitem (s, a) (QLearning.q c)) as [cur tbl1].
  simpl in Hcur, Htbl1, Hdom1. subst cur.
  destruct (greedy_scan ns _ (QLearning.q c) tbl1 Hne Htbl1)
    as (a' & tbl2 & Hmax & Ha' & Hbest & _ & Htbl2).
  pose proof (py_max_key_dom _ _ _ _ _ _ Hmax) as Hdom2.
  rewrite Hmax. simpl. exists a', tbl2. split; [done|]. split; [done|].
  split; [done|]. split; [done|]. rewrite Hdom2, Hdom1.
  by rewrite (comm_L (∪) {[(s, a)]} (dom (QLearning.q c))).
Qed.



(** X9. The table only grows, and only at the keys the call reads: [update]
    leaves exactly the old keys, [(s, a)] and [(ns, a')] for every action
    index [a']; a greedy [choose] leaves the old keys and [(s, a')] for every
    action index; an exploring [choose] leaves the table as it was. *)
Theorem table_keys `{PyRuntime G} (c : QLearning.t) :
  QLearning.actions c ≠ [] →
  let n := length (QLearning.actions c) in
  (∀ s a r ns, ∃ c',
     QLearning.update s a r ns c = Ok c'
     ∧ dom (QLearning.q c')
       = dom (QLearning.q c) ∪ {[(s, a)]} ∪ list_to_set ((λ j, (ns, j)) <$> seq 0 n))
  ∧ (∀ s (g : G), ∃ a c' g',
       QLearning.choose s c g = Ok (a, c', g')
       ∧ ((random_random g).1 < QLearning.ε c → QLearning.q c' = QLearning.q c)
       ∧ (QLearning.ε c <= (random_random g).1 →
          dom (QLearning.q c')
          = dom (QLearning.q c) ∪ list_to_set ((λ j, (s, j)) <$> seq 0 n))).
Proof.
  intros Hne n. split.
  - intros s a r ns. destruct (update_inv s a r ns c Hne) as (a' & tbl2 & Hrun & _ & _ & _ & Hdom).
    eexists. split; [exact Hrun|]. simpl. rewrite dom_insert_L, Hdom. fold n.
    apply set_eq. intros x. rewrite !elem_of_union, elem_of_singleton. tauto.
  - intros s g. apply length_pos_of_ne_nil in Hne. fold n in Hne.
    unfold QLearning.choose. fold n. destruct (random_random g) as [u g1]. simpl.
    destruct (Qltb u (QLearning.ε c)) eqn:Hcmp.
    + unfold py_randrange. destruct n as [|m]; [lia|]. simpl.
      destruct (random_randrange (S m) g1) as [a g2]. exists a, c, g2.
      split; [done|]. split; [done|]. intros Hge. apply Qltb_lt in Hcmp. lra.
    + destruct (greedy_scan s n (QLearning.q c) (QLearning.q c) Hne)
        as (a & tbl' & Hmax & _); [done|].
      pose proof (py_max_key_dom _ _ _ _ _ _ Hmax) as Hdom.
      rewrite Hmax. simpl. eexists a, _, g1. split; [reflexivity|]. simpl.
      split; [|done]. intros Hlt. apply Qltb_ge in Hcmp. lra.
Qed.

(** The keys after the first update of the demo controller. *)
Lemma table_keys_witness :
  ∃ c',
    QLearning.update (0, 0, 0%Z)%nat 1 7 (1, 0, 0%Z)%nat Demo.ctrl0 = Ok c'
    ∧ dom (QLearning.q c')
      = dom (QLearning.q Demo.ctrl0) ∪ {[((0, 0, 0%Z)%nat, 1%nat)]}
        ∪ list_to_set ((λ j, ((1, 0, 0%Z)%nat, j)) <$> seq 0 4).
Proof.
  destruct (table_keys (G := bool) Demo.ctrl0) as [Hupdate _]; [done|].
  exact (Hupdate (0, 0, 0%Z)%nat 1%nat 7 (1, 0, 0%Z)%nat).
Defined.

(** X10. On an empty action list [choose] raises [ValueError], whichever
    branch the draw selects ([randrange(0)] and [max] of an empty range both
    do), and so does [update]. *)
Theorem empty_actions_raise `{PyRuntime G} (c : QLearning.t) :
  QLearning.actions c = [] →
  (∀ s (g : G), QLearning.choose s c g = Raise ValueError)
  ∧ (∀ s a r ns, QLearning.update s a r ns c = Raise ValueError).
Proof.
  intros Hnil. split.
  - intros s g. unfold QLearning.choose. rewrite Hnil.
    destruct (random_random g) as [u g1]. by destruct (Qltb u (QLearning.ε c)).
  - intros s a r ns. unfold QLearning.update. rewrite Hnil.
    by destruct (QLearning.getitem (s, a) (QLearning.q c)).
Qed.

(** A controller made with no action. *)
Lemma empty_actions_raise_witness :
  (∀ s (g : bool), QLearning.choose s (QLearning.new [] (1 # 10) (9 # 10) (2 # 10)) g
                   = Raise ValueError)
  ∧ (∀ s a r ns, QLearning.update s a r ns (QLearning.new [] (1 # 10) (9 # 10) (2 # 10))
                 = Raise ValueError).
Proof. apply (empty_actions_raise (QLearning.new [] (1 # 10) (9 # 10) (2 # 10))). reflexivity. Defined.

(** ** Simulation: the arrival phase *)

Lemma lanes_add_vehicle d v i d' :
  Intersection.lanes (Intersection.add_vehicle d v i) d'
  = if decide (d = d') then Lane.add_vehicle v (Intersection.lanes i d)
    else Intersection.lanes i d'.
Proof.
  unfold Intersection.add_vehicle. case_decide as Hd.
  - subst d'. apply lanes_set_lane_eq.
  - by apply lanes_set_lane_ne.
Qed.

Lemma iter_add_vehicle c d v i :
  Intersection.service_rate (Nat.iter c (Intersection.add_vehicle d v) i)
  = Intersection.service_rate i
  ∧ ∀ d', Lane.queue (Intersection.lanes (Nat.iter c (Intersection.add_vehicle d v) i) d')
          = Lane.queue (Intersection.lanes i d')
            ++ replicate (if decide (d = d') then c else O) v.
Proof.
  induction c as [|c [IHrate IHq]]; simpl.
  - split; [done|]. intros d'. case_decide; by rewrite app_nil_r.
  - split.
    + unfold Intersection.add_vehicle at 1. by rewrite service_rate_set_lane.
    + intros d'. rewrite lanes_add_vehicle. case_decide as Hd.
      * subst d'. simpl. rewrite IHq. rewrite decide_True by done.
        change (v :: replicate c v) with (replicate (S c) v).
        by rewrite replicate_S_end, app_assoc.
      * rewrite IHq. by rewrite decide_False.
Qed.

(** X11. Queueing the arrivals of a micro-step only appends: every lane
    keeps the vehicles it held, in order, followed by as many new vehicles as
    the arrivals announce for its direction, each with arrival time [tt] and
    no departure time; the service rate is not touched. *)
Theorem add_arrivals_appends (arrivals : list (Dir * nat)) (tt : Q) (i : Intersection.t) :
  Intersection.service_rate (Simulation.add_arrivals arrivals tt i)
  = Intersection.service_rate i
  ∧ ∀ d, Lane.queue (Intersection.lanes (Simulation.add_arrivals arrivals tt i) d)
         = Lane.queue (Intersection.lanes i d)
           ++ replicate (arrivals_for d arrivals) (new_Vehicle tt).
Proof.
  unfold Simulation.add_arrivals, arrivals_for. revert i.
  induction arrivals as [|[d c] arrivals IH]; intros i; simpl.
  - split; [done|]. intros d. by rewrite app_nil_r.
  - destruct (IH (Nat.iter c (Intersection.add_vehicle d (new_Vehicle tt)) i))
      as [IHrate IHq].
    destruct (iter_add_vehicle c d (new_Vehicle tt) i) as [Hrate Hq].
    split; [by rewrite IHrate|]. intros d'. rewrite IHq, Hq, <- app_assoc.
    f_equal. rewrite filter_cons. simpl.
    destruct (decide (d = d')); simpl; [by rewrite replicate_add | done].
Qed.

Section run_invariants.
Context `{PyRuntime G}.

(** What the arrival loop does, whenever it returns: the configuration is
    kept and every lane gets new vehicles behind the old ones. *)
Lemma arrive_loop_inv fuel : ∀ self tt tend (g : G) self' g',
  Simulation.arrive_loop fuel self tt tend g = Ok (self', g') →
  Simulation.gen self' = Simulation.gen self
  ∧ Simulation.dt self' = Simulation.dt self
  ∧ Simulation.sensor self' = Simulation.sensor self
  ∧ Intersection.service_rate (Simulation.inter self')
    = Intersection.service_rate (Simulation.inter self)
  ∧ ∀ d, ∃ new,
      Lane.queue (Intersection.lanes (Simulation.inter self') d)
      = Lane.queue (Intersection.lanes (Simulation.inter self) d) ++ new
      ∧ Forall (λ v, depart_time v = None ∧ arrival_time v < tend
                     ∧ (0 <= Simulation.dt self → tt <= arrival_time v)) new.
Proof.
  induction fuel as [|fuel IH]; intros self tt tend g self' g'; simpl; [done|].
  destruct (Qltb tt tend) eqn:Hlt.
  2:{ intros [= <- <-]. repeat split. intros d. exists []. by rewrite app_nil_r. }
  apply Qltb_lt in Hlt.
  destruct (TrafficGenerator.generate fuel _ _ tt g) as [[arrivals g1]| |]; simpl; [|done..].
  intros Hrun. apply IH in Hrun as (Hgen & Hdt & Hsensor & Hrate & Hq). simpl in *.
  destruct (add_arrivals_appends arrivals tt (Simulation.inter self)) as [Hrate' Hq'].
  split; [done|]. split; [done|]. split; [done|]. split; [by rewrite Hrate|].
  intros d. destruct (Hq d) as (new & Hnew & Hall). rewrite Hq' in Hnew.
  exists (replicate (arrivals_for d arrivals) (new_Vehicle tt) ++ new).
  split; [by rewrite Hnew, app_assoc|]. apply Forall_app. split.
  - apply Forall_replicate. simpl. repeat split; [done|]. intros; apply Qle_refl.
  - eapply Forall_impl; [exact Hall|]. simpl. intros v (Hdep & Hend & Hstart).
    split; [done|]. split; [done|]. intros Hdt0. specialize (Hstart Hdt0). lra.
Qed.

(** What [choose] keeps, whenever it returns. *)
Lemma choose_inv (s : State) (c : QLearning.t) (g : G) a c' g' :
  QLearning.choose s c g = Ok (a, c', g') →
  (a < length (QLearning.actions c))%nat
  ∧ QLearning.actions c' = QLearning.actions c
  ∧ (QLearning.α c', QLearning.γ c', QLearning.ε c')
    = (QLearning.α c, QLearning.γ c, QLearning.ε c)
  ∧ ∀ key, QLearning.value (QLearning.q c') key = QLearning.value (QLearning.q c) key.
Proof.
  destruct (QLearning.actions c) as [|pd acts] eqn:Hacts.
  { unfold QLearning.choose. rewrite Hacts.
    destruct (random_random g) as [u g1]. by destruct (Qltb u (QLearning.ε c)). }
  assert (Hne : QLearning.actions c ≠ []) by (by rewrite Hacts).
  rewrite <- Hacts. clear Hacts pd acts.
  unfold QLearning.choose. destruct (random_random g) as [u g1].
  destruct (Qltb u (QLearning.ε c)).
  - pose proof (random_randrange_range _ g1 (length_pos_of_ne_nil _ Hne)) as Hlt.
    unfold py_randrange.
    destruct (length (QLearning.actions c)) as [|n] eqn:Hn; [done|]. simpl.
    destruct (random_randrange (S n) g1) as [a0 g2]. intros [= <- <- <-]. by simpl in Hlt.
  - destruct (greedy_scan s _ (QLearning.q c) (QLearning.q c) (length_pos_of_ne_nil _ Hne))
      as (a0 & tbl' & Hmax & Ha & _ & _ & Htbl); [done|].
    rewrite Hmax. simpl. by intros [= <- <- <-].
Qed.

(** What [update] keeps, whenever it returns. *)
Lemma update_keeps (s : State) (a : nat) (r : Q) (ns : State) (c c' : QLearning.t) :
  QLearning.update s a r ns c = Ok c' →
  QLearning.actions c' = QLearning.actions c
  ∧ (QLearning.α c', QLearning.γ c', QLearning.ε c')
    = (QLearning.α c, QLearning.γ c, QLearning.ε c).
Proof.
  unfold QLearning.update. destruct (QLearning.getitem _ _) as [cur tbl1].
  destruct (py_max_key _ _ _ _) as [[[a' best] tbl2]| |]; simpl; [|done..].
  by intros [= <-].
Qed.

(** A decision step that returns, taken apart. *)
Lemma step_inv fuel train (st st' : Simulation.Locals G) :
  Simulation.step fuel train st = Ok st' →
  let s := Sensor.read (Simulation.sensor (Simulation.sim st))
                       (Simulation.inter (Simulation.sim st)) in
  ∃ a c1 g1 phase dur sim1 g2 out i2 c2,
    QLearning.choose s (Simulation.ctrl st) (Simulation.rng st) = Ok (a, c1, g1)
    ∧ QLearning.actions c1 !! a = Some (phase, dur)
    ∧ Simulation.arrive_loop fuel (Simulation.sim st) (Simulation.now st)
        (Simulation.now st + dur) g1 = Ok (sim1, g2)
    ∧ Intersection.serve phase dur (Simulation.now st + dur) (Simulation.inter sim1)
      = Ok (out, i2)
    ∧ (if train
       then QLearning.update s a (inject_Z (Simulation.reward_of out i2))
              (Sensor.read (Simulation.sensor sim1) i2) c1 = Ok c2
       else c2 = c1)
    ∧ st' = Simulation.mkLocals (Simulation.now st + dur)
              (Simulation.departed_list st ++ out)
              (Simulation.total_r st + Simulation.reward_of out i2)%Z
              (Simulation.set_inter i2 sim1) c2 g2.
Proof.
  intros Hstep s. unfold Simulation.step in Hstep. fold s in Hstep.
  destruct (QLearning.choose s _ _) as [[[a c1] g1]| |]; simpl in Hstep; [|done..].
  destruct (QLearning.actions c1 !! a) as [[phase dur]|] eqn:Hpd; simpl in Hstep; [|done].
  destruct (Simulation.arrive_loop fuel _ _ _ g1) as [[sim1 g2]| |] eqn:Harr;
    simpl in Hstep; [|done..].
  destruct (Intersection.serve phase dur _ _) as [[out i2]| |] eqn:Hserve;
    simpl in Hstep; [|done..].
  destruct train.
  - destruct (QLearning.update s a _ _ c1) as [c2| |] eqn:Hup; simpl in Hstep; [|done..].
    injection Hstep as <-. by exists a, c1, g1, phase, dur, sim1, g2, out, i2, c2.
  - simpl in Hstep. injection Hstep as <-.
    by exists a, c1, g1, phase, dur, sim1, g2, out, i2, c1.
Qed.

(** A property of the locals that every decision step keeps holds at the exit
    of the loop. *)
Lemma run_loop_inv (P : Simulation.Locals G → Prop) (max_t : Q) (train : bool) :
  (∀ fuel st st', P st → Simulation.step fuel train st = Ok st' → P st') →
  ∀ fuel st st', P st → Simulation.run_loop fuel max_t train st = Ok st' → P st'.
Proof.
  intros Hstep. induction fuel as [|fuel IH]; intros st st' HP; simpl; [done|].
  destruct (Qltb (Simulation.now st) max_t); [|by intros [= <-]].
  destruct (Simulation.step fuel train st) as [st1| |] eqn:Hst; simpl; [|done..].
  apply IH. by eapply Hstep.
Qed.

(** The two parts of a returning [run]. *)
Lemma run_inv fuel self c max_t train (g : G) r st :
  Simulation.run fuel self c max_t train g = Ok (r, st) →
  Simulation.run_loop fuel max_t train (Simulation.entry self c g) = Ok st
  ∧ Simulation.result_of st = Ok r.
Proof.
  unfold Simulation.run.
  destruct (Simulation.run_loop _ _ _ _) as [st0| |]; simpl; [|done..].
  destruct (Simulation.result_of st0) as [r0| |] eqn:Hres; simpl; [|done..].
  by intros [= <- <-].
Qed.

End run_invariants.

Section step_summary.
Context `{PyRuntime G}.

(** Everything a returning decision step does to the locals. *)
Lemma step_summary fuel train (st st' : Simulation.Locals G) :
  Simulation.step fuel train st = Ok st' →
  ∃ pd out,
    pd ∈ QLearning.actions (Simulation.ctrl st)
    ∧ Simulation.now st' = Simulation.now st + pd.2
    ∧ Simulation.departed_list st' = Simulation.departed_list st ++ out
    ∧ Simulation.total_r st'
      = (Simulation.total_r st
         + Simulation.reward_of out (Simulation.inter (Simulation.sim st')))%Z
    ∧ (length out
       ≤ Z.to_nat (Intersection.capacity (Simulation.inter (Simulation.sim st)) pd.2))%nat
    ∧ Simulation.gen (Simulation.sim st') = Simulation.gen (Simulation.sim st)
    ∧ Simulation.dt (Simulation.sim st') = Simulation.dt (Simulation.sim st)
    ∧ Simulation.sensor (Simulation.sim st') = Simulation.sensor (Simulation.sim st)
    ∧ Intersection.service_rate (Simulation.inter (Simulation.sim st'))
      = Intersection.service_rate (Simulation.inter (Simulation.sim st))
    ∧ QLearning.actions (Simulation.ctrl st') = QLearning.actions (Simulation.ctrl st)
    ∧ (QLearning.α (Simulation.ctrl st'), QLearning.γ (Simulation.ctrl st'),
       QLearning.ε (Simulation.ctrl st'))
      = (QLearning.α (Simulation.ctrl st), QLearning.γ (Simulation.ctrl st),
         QLearning.ε (Simulation.ctrl st))
    ∧ (train = false →
       ∀ key, QLearning.value (QLearning.q (Simulation.ctrl st')) key
              = QLearning.value (QLearning.q (Simulation.ctrl st)) key)
    ∧ ∀ Pq : Vehicle → Prop,
        (∀ d, Forall Pq (Lane.queue (Intersection.lanes
                                       (Simulation.inter (Simulation.sim st)) d))) →
        (∀ v, depart_time v = None → arrival_time v < Simulation.now st' → Pq v) →
        (∀ d, Forall Pq (Lane.queue (Intersection.lanes
                                       (Simulation.inter (Simulation.sim st')) d)))
        ∧ Forall (λ o, ∃ v, Pq v ∧ o = depart (Simulation.now st') v) out.
Proof.
  intros Hstep. apply step_inv in Hstep
    as (a & c1 & g1 & phase & dur & sim1 & g2 & out & i2 & c2
        & Hch & Hpd & Harr & Hserve & Hup & ->).
  apply choose_inv in Hch as (Ha & Hacts1 & Hpar1 & Hval1).
  apply arrive_loop_inv in Harr as (Hgen & Hdt & Hsensor & Hrate & Hq).
  destruct (serve_spec phase dur (Simulation.now st + dur) (Simulation.inter sim1))
    as (d1 & d2 & out0 & i0 & Hdirs & Hne & Hserve0 & Hcap & _ & Hframe & Hrate2 & _).
  rewrite Hserve in Hserve0. injection Hserve0 as <- <-.
  destruct (serve_heads phase dur (Simulation.now st + dur) (Simulation.inter sim1))
    as (d1' & d2' & Hdirs' & out0 & i0 & k1 & k2 & Hserve0 & Hd1 & Hd2 & _ & _ & Hperm & _).
  rewrite Hserve in Hserve0. injection Hserve0 as <- <-.
  rewrite Hdirs in Hdirs'. injection Hdirs' as <- <-.
  assert (Hkeep : QLearning.actions c2 = QLearning.actions c1
                  ∧ (QLearning.α c2, QLearning.γ c2, QLearning.ε c2)
                    = (QLearning.α c1, QLearning.γ c1, QLearning.ε c1)).
  { destruct train; [by apply update_keeps in Hup | by subst c2]. }
  destruct Hkeep as [Hacts2 Hpar2].
  exists (phase, dur), out. simpl.
  split; [rewrite <- Hacts1; by eapply list_elem_of_lookup_2|].
  split; [done|]. split; [done|]. split; [done|].
  split; [unfold Intersection.capacity in *; by rewrite <- Hrate|].
  split; [done|]. split; [done|]. split; [done|].
  split; [by rewrite Hrate2|]. split; [by rewrite Hacts2|].
  split; [by rewrite Hpar2|].
  split; [intros ->; by subst c2|].
  intros Pq Hold Hnew.
  assert (Hsim1 : ∀ d, Forall Pq (Lane.queue (Intersection.lanes (Simulation.inter sim1) d))).
  { intros d. destruct (Hq d) as (new & -> & Hall). apply Forall_app. split; [apply Hold|].
    eapply Forall_impl; [exact Hall|]. simpl. intros v (Hdep & Hend & _). by apply Hnew. }
  split.
  - intros d. destruct (decide (d = d1)) as [->|Hn1]; [rewrite Hd1; by apply Forall_drop|].
    destruct (decide (d = d2)) as [->|Hn2]; [rewrite Hd2; by apply Forall_drop|].
    rewrite Hframe by done. apply Hsim1.
  - rewrite Hperm. apply Forall_app. split; apply Forall_fmap;
      (eapply Forall_impl; [apply Forall_take, Hsim1|]); simpl; eauto.
Qed.

End step_summary.

(** ** Simulation.run: what a run keeps *)

Lemma result_of_inv {G} (st : Simulation.Locals G) (r : Simulation.Result) :
  Simulation.result_of st = Ok r →
  Simulation.departed r = length (Simulation.departed_list st)
  ∧ Simulation.reward r = Simulation.total_r st
  ∧ Simulation.average_wait (Simulation.departed_list st) = Ok (Simulation.avg_wait r).
Proof.
  unfold Simulation.result_of.
  destruct (Simulation.average_wait _) as [avg| |]; simpl; [|done..]. by intros [= <-].
Qed.

(** What a returning run keeps. *)
Lemma run_keeps `{PyRuntime G} (fuel : nat) (self : Simulation.t)
    (c : QLearning.t) (max_t : Q) (train : bool) (g : G)
    (r : Simulation.Result) (st : Simulation.Locals G) :
  Simulation.run fuel self c max_t train g = Ok (r, st) →
  Simulation.gen (Simulation.sim st) = Simulation.gen self
  ∧ Simulation.dt (Simulation.sim st) = Simulation.dt self
  ∧ Simulation.sensor (Simulation.sim st) = Simulation.sensor self
  ∧ Intersection.service_rate (Simulation.inter (Simulation.sim st))
    = Intersection.service_rate (Simulation.inter self)
  ∧ QLearning.actions (Simulation.ctrl st) = QLearning.actions c
  ∧ (QLearning.α (Simulation.ctrl st), QLearning.γ (Simulation.ctrl st),
     QLearning.ε (Simulation.ctrl st))
    = (QLearning.α c, QLearning.γ c, QLearning.ε c)
  ∧ (train = false →
     ∀ key, QLearning.value (QLearning.q (Simulation.ctrl st)) key
            = QLearning.value (QLearning.q c) key).
Proof.
  intros [Hloop _]%run_inv. revert Hloop.
  apply (run_loop_inv (λ st,
    Simulation.gen (Simulation.sim st) = Simulation.gen self
    ∧ Simulation.dt (Simulation.sim st) = Simulation.dt self
    ∧ Simulation.sensor (Simulation.sim st) = Simulation.sensor self
    ∧ Intersection.service_rate (Simulation.inter (Simulation.sim st))
      = Intersection.service_rate (Simulation.inter self)
    ∧ QLearning.actions (Simulation.ctrl st) = QLearning.actions c
    ∧ (QLearning.α (Simulation.ctrl st), QLearning.γ (Simulation.ctrl st),
       QLearning.ε (Simulation.ctrl st))
      = (QLearning.α c, QLearning.γ c, QLearning.ε c)
    ∧ (train = false →
       ∀ key, QLearning.value (QLearning.q (Simulation.ctrl st)) key
              = QLearning.value (QLearning.q c) key))); [|done].
  clear st. intros fuel' st st' (Hgen & Hdt & Hsensor & Hrate & Hacts & Hpar & Hval) Hstep.
  apply step_summary in Hstep
    as (pd & out & _ & _ & _ & _ & _ & Hgen' & Hdt' & Hsensor' & Hrate' & Hacts' & Hpar'
        & Hval' & _).
  split; [congruence|]. split; [congruence|]. split; [congruence|]. split; [congruence|].
  split; [congruence|]. split; [congruence|].
  intros Htrain key. rewrite Hval' by done. by apply Hval.
Qed.

(** X12. A run changes the queues, the table and the generator, and nothing
    else: whenever it returns, the arrival rates, [dt], the sensor, the service
    rate, the action list and the hyperparameters α, γ, ε are what they were;
    and with [train=False] every value read from the table is what it was. *)
Theorem run_keeps_configuration `{PyRuntime G} (fuel : nat) (self : Simulation.t)
    (c : QLearning.t) (max_t : Q) (train : bool) (g : G)
    (r : Simulation.Result) (st : Simulation.Locals G) :
  Simulation.run fuel self c max_t train g = Ok (r, st) →
  Simulation.gen (Simulation.sim st) = Simulation.gen self
  ∧ Simulation.dt (Simulation.sim st) = Simulation.dt self
  ∧ Simulation.sensor (Simulation.sim st) = Simulation.sensor self
  ∧ Intersection.service_rate (Simulation.inter (Simulation.sim st))
    = Intersection.service_rate (Simulation.inter self)
  ∧ QLearning.actions (Simulation.ctrl st) = QLearning.actions c
  ∧ (QLearning.α (Simulation.ctrl st), QLearning.γ (Simulation.ctrl st),
     QLearning.ε (Simulation.ctrl st))
    = (QLearning.α c, QLearning.γ c, QLearning.ε c)
  ∧ (train = false →
     ∀ key, QLearning.value (QLearning.q (Simulation.ctrl st)) key
            = QLearning.value (QLearning.q c) key).
Proof. apply run_keeps. Qed.

(** The demo run over 5 seconds, without training. *)
Lemma run_keeps_configuration_witness :
  ∃ r st,
    Simulation.run 12 Demo.sim0 Demo.ctrl0 5 false true = Ok (r, st)
    ∧ Simulation.gen (Simulation.sim st) = Simulation.gen Demo.sim0
    ∧ QLearning.actions (Simulation.ctrl st) = QLearning.actions Demo.ctrl0
    ∧ ∀ key, QLearning.value (QLearning.q (Simulation.ctrl st)) key
             = QLearning.value (QLearning.q Demo.ctrl0) key.
Proof.
  eexists _, _. split; [vm_compute; reflexivity|].
  edestruct (run_keeps_configuration 12 Demo.sim0 Demo.ctrl0 5 false true)
    as (Hgen & _ & _ & _ & Hacts & _ & Hval); [vm_compute; reflexivity|].
  split; [exact Hgen|]. split; [exact Hacts|]. by apply Hval.
Defined.

(** X13. The total reward of a run is at most ten times the number of
    departed vehicles: every step earns 10 per vehicle served and loses 2 per
    vehicle left waiting. *)
Theorem run_reward_bound `{PyRuntime G} (fuel : nat) (self : Simulation.t)
    (c : QLearning.t) (max_t : Q) (train : bool) (g : G)
    (r : Simulation.Result) (st : Simulation.Locals G) :
  Simulation.run fuel self c max_t train g = Ok (r, st) →
  (Simulation.reward r ≤ 10 * Z.of_nat (Simulation.departed r))%Z.
Proof.
  intros [Hloop (-> & -> & _)%result_of_inv]%run_inv. revert Hloop.
  apply (run_loop_inv (λ st,
    (Simulation.total_r st ≤ 10 * Z.of_nat (length (Simulation.departed_list st)))%Z));
    [|done].
  clear st. intros fuel' st st' Hinv Hstep.
  apply step_summary in Hstep as (pd & out & _ & _ & -> & -> & _).
  rewrite length_app. unfold Simulation.reward_of. lia.
Qed.

Lemma run_reward_bound_witness :
  ∃ r st,
    Simulation.run 12 Demo.sim0 Demo.ctrl0 5 true true = Ok (r, st)
    ∧ (Simulation.reward r ≤ 10 * Z.of_nat (Simulation.departed r))%Z.
Proof.
  eexists _, _. split; [vm_compute; reflexivity|].
  eapply (run_reward_bound 12 Demo.sim0 Demo.ctrl0 5 true true). vm_compute. reflexivity.
Defined.



(** ** Simulation.run: waits *)

Lemma sum_pos (ws : list Q) :
  Forall (λ w, 0 < w) ws → 0 <= foldr Qplus 0 ws ∧ (ws ≠ [] → 0 < foldr Qplus 0 ws).
Proof.
  induction 1 as [|w ws Hw _ [IH _]]; simpl; [by split|]. split; [lra|]. intros _. lra.
Qed.

Lemma mean_pos (ws : list Q) :
  Forall (λ w, 0 < w) ws → 0 <= mean ws ∧ (ws ≠ [] → 0 < mean ws).
Proof.
  intros Hws. destruct ws as [|w ws]; [by split|].
  destruct (sum_pos _ Hws) as [_ Hsum]. specialize (Hsum ltac:(done)).
  assert (Hlen : 0 < inject_Z (Z.of_nat (length (w :: ws)))).
  { change 0 with (inject_Z 0). rewrite <- Zlt_Qlt. simpl. lia. }
  assert (Hmean : 0 < mean (w :: ws)).
  { unfold mean. apply Qlt_shift_div_l; [done|]. by rewrite Qmult_0_l. }
  split; [by apply Qlt_le_weak | done].
Qed.

(** Departures follow arrivals. *)
Lemma run_waits `{PyRuntime G} (fuel : nat) (self : Simulation.t)
    (c : QLearning.t) (max_t : Q) (train : bool) (g : G)
    (r : Simulation.Result) (st : Simulation.Locals G) :
  (∀ pd, pd ∈ QLearning.actions c → 0 < pd.2) →
  (∀ d, Forall (λ v, arrival_time v <= 0)
               (Lane.queue (Intersection.lanes (Simulation.inter self) d))) →
  Simulation.run fuel self c max_t train g = Ok (r, st) →
  Forall (λ o, ∃ ad, o = departed_at ad ∧ ad.1 < ad.2 ∧ ad.2 <= Simulation.now st)
         (Simulation.departed_list st)
  ∧ 0 <= Simulation.avg_wait r
  ∧ (Simulation.departed r ≠ O → 0 < Simulation.avg_wait r).
Proof.
  intros Hdur Hinit [Hloop (Hcount & _ & Havg)%result_of_inv]%run_inv.
  assert (Hinv :
    QLearning.actions (Simulation.ctrl st) = QLearning.actions c
    ∧ (∀ d, Forall (λ v, arrival_time v <= Simulation.now st)
              (Lane.queue (Intersection.lanes (Simulation.inter (Simulation.sim st)) d)))
    ∧ Forall (λ o, ∃ ad, o = departed_at ad ∧ ad.1 < ad.2 ∧ ad.2 <= Simulation.now st)
             (Simulation.departed_list st)).
  { eapply (run_loop_inv (λ st,
      QLearning.actions (Simulation.ctrl st) = QLearning.actions c
      ∧ (∀ d, Forall (λ v, arrival_time v <= Simulation.now st)
                (Lane.queue (Intersection.lanes (Simulation.inter (Simulation.sim st)) d)))
      ∧ Forall (λ o, ∃ ad, o = departed_at ad ∧ ad.1 < ad.2 ∧ ad.2 <= Simulation.now st)
               (Simulation.departed_list st))); [| |exact Hloop].
    - clear st Hloop Hcount Havg. intros fuel' st st' (Hacts & Hq & Hdep) Hstep.
      apply step_summary in Hstep
        as (pd & out & Hpd & Hnow & Hdep' & _ & _ & _ & _ & _ & _ & Hacts' & _ & _ & Hveh).
      rewrite Hacts in Hpd. specialize (Hdur pd Hpd).
      destruct (Hveh (λ v, arrival_time v < Simulation.now st')) as [Hq' Hout].
      { intros d. eapply Forall_impl; [apply Hq|]. simpl. intros v Hv. rewrite Hnow. lra. }
      { done. }
      split; [congruence|]. split.
      + intros d. eapply Forall_impl; [apply Hq'|]. simpl. intros v Hv.
        by apply Qlt_le_weak.
      + rewrite Hdep'. apply Forall_app. split.
        * eapply Forall_impl; [exact Hdep|]. simpl. intros o (ad & -> & Hlt & Hle).
          exists ad. split; [done|]. split; [done|]. rewrite Hnow. lra.
        * eapply Forall_impl; [exact Hout|]. simpl. intros o (v & Hv & ->).
          exists (arrival_time v, Simulation.now st'). split; [done|]. simpl.
          split; [done | apply Qle_refl].
    - simpl. split; [done|]. split; [done | constructor]. }
  destruct Hinv as (_ & _ & Hdep). split; [done|].
  assert (Hads : ∃ ads, Simulation.departed_list st = departed_at <$> ads
                        ∧ Forall (λ w, 0 < w) ((λ ad, ad.2 - ad.1) <$> ads)).
  { clear -Hdep. induction Hdep as [|o os (ad & -> & Hlt & _) _ (ads & -> & Hws)].
    - by exists [].
    - exists (ad :: ads). split; [done|]. simpl. constructor; [lra | done]. }
  destruct Hads as (ads & Hads & Hws). rewrite Hads in Havg, Hcount.
  destruct (average_wait_departed_at ads) as (avg & Havg' & Hmean & _).
  rewrite Havg in Havg'. injection Havg' as <-.
  destruct (mean_pos _ Hws) as [Hge Hgt]. rewrite Hmean. split; [done|].
  intros Hne. apply Hgt. rewrite length_fmap in Hcount. destruct ads; [done|]. done.
Qed.

(** X15. Started on queues whose vehicles arrived by time 0 (empty queues,
    after [reset]) and with positive durations, a run only lets vehicles depart
    after they arrived: every departed vehicle has an arrival time, and a
    departure time that is later and not after the exit clock.  So [avg_wait]
    is never negative, and positive as soon as one vehicle departed. *)
Theorem run_waits_positive `{PyRuntime G} (fuel : nat) (self : Simulation.t)
    (c : QLearning.t) (max_t : Q) (train : bool) (g : G)
    (r : Simulation.Result) (st : Simulation.Locals G) :
  (∀ pd, pd ∈ QLearning.actions c → 0 < pd.2) →
  (∀ d, Forall (λ v, arrival_time v <= 0)
               (Lane.queue (Intersection.lanes (Simulation.inter self) d))) →
  Simulation.run fuel self c max_t train g = Ok (r, st) →
  Forall (λ o, ∃ ad, o = departed_at ad ∧ ad.1 < ad.2 ∧ ad.2 <= Simulation.now st)
         (Simulation.departed_list st)
  ∧ 0 <= Simulation.avg_wait r
  ∧ (Simulation.departed r ≠ O → 0 < Simulation.avg_wait r).
Proof. apply run_waits. Qed.

Lemma run_waits_positive_witness :
  ∃ r st,
    Simulation.run 12 Demo.sim0 Demo.ctrl0 5 true true = Ok (r, st)
    ∧ Forall (λ o, ∃ ad, o = departed_at ad ∧ ad.1 < ad.2 ∧ ad.2 <= Simulation.now st)
             (Simulation.departed_list st)
    ∧ 0 <= Simulation.avg_wait r.
Proof.
  eexists _, _. split; [vm_compute; reflexivity|].
  edestruct (run_waits_positive 12 Demo.sim0 Demo.ctrl0 5 true true)
    as (Hdep & Havg & _).
  - exact demo_durations_pos.
  - intros d. destruct d; constructor.
  - vm_compute. reflexivity.
  - split; [exact Hdep | exact Havg].
Defined.

(** X16. A run whose horizon [max_t] is not positive takes no step: it
    returns at once with no departure, average wait 0 and reward 0, and leaves
    the simulation, the controller and the generator untouched. *)
Theorem run_no_step `{PyRuntime G} (fuel : nat) (self : Simulation.t)
    (c : QLearning.t) (max_t : Q) (train : bool) (g : G) :
  max_t <= 0 →
  Simulation.run (S fuel) self c max_t train g
  = Ok (Simulation.mkResult 0 0 0, Simulation.entry self c g).
Proof.
  intros Hmax. unfold Simulation.run. simpl.
  assert (Hge : Qltb 0 max_t = false) by (by apply Qltb_ge). by rewrite Hge.
Qed.

Lemma run_no_step_witness :
  Simulation.run 1 Demo.sim0 Demo.ctrl0 0 true true
  = Ok (Simulation.mkResult 0 0 0, Simulation.entry Demo.sim0 Demo.ctrl0 true).
Proof. apply (run_no_step 0 Demo.sim0 Demo.ctrl0 0 true true). discriminate. Defined.

(** ** Simulation.reset and main *)

(** X17. [reset] empties the four lanes and keeps the service rate, the
    arrival rates, the sensor and [dt]; resetting twice is resetting once; the
    state read after a reset has both bin indices equal to [disc(0)] and no
    imbalance. *)
Theorem reset_clears (self : Simulation.t) :
  (∀ d, Intersection.queue_lengths (Simulation.inter (Simulation.reset self)) d = O)
  ∧ Intersection.service_rate (Simulation.inter (Simulation.reset self))
    = Intersection.service_rate (Simulation.inter self)
  ∧ Simulation.gen (Simulation.reset self) = Simulation.gen self
  ∧ Simulation.sensor (Simulation.reset self) = Simulation.sensor self
  ∧ Simulation.dt (Simulation.reset self) = Simulation.dt self
  ∧ Simulation.reset (Simulation.reset self) = Simulation.reset self
  ∧ Sensor.read (Simulation.sensor self) (Simulation.inter (Simulation.reset self))
    = (Sensor.disc (Simulation.sensor self) 0, Sensor.disc (Simulation.sensor self) 0, 0%Z).
Proof. repeat split. by intros []. Qed.

Lemma anneal_cases (ep : nat) :
  let x := (3 # 10) - (3 # 200) * inject_Z (Z.of_nat ep) in
  (5 # 100 < x ∧ Main.anneal ep == x) ∨ (x <= 5 # 100 ∧ Main.anneal ep = 5 # 100).
Proof.
  intros x. unfold Main.anneal.
  assert (Hx : (3 # 10) * (1 - inject_Z (Z.of_nat ep) / 20) == x)
    by (unfold x; field).
  destruct (Qltb _ _) eqn:Hcmp.
  - left. apply Qltb_lt in Hcmp. by rewrite <- Hx.
  - right. apply Qltb_ge in Hcmp. by rewrite <- Hx.
Qed.

(** X18. The exploration rate [main] sets for episode [ep] is always between
    0.05 and 0.3, never rises from one episode to the next, and is exactly
    0.05 from episode 17 on. *)
Theorem anneal_schedule (ep : nat) :
  5 # 100 <= Main.anneal ep
  ∧ Main.anneal ep <= 3 # 10
  ∧ (∀ ep', (ep ≤ ep')%nat → Main.anneal ep' <= Main.anneal ep)
  ∧ ((17 ≤ ep)%nat → Main.anneal ep = 5 # 100).
Proof.
  assert (Hpos : ∀ n : nat, 0 <= inject_Z (Z.of_nat n)).
  { intros n. change 0 with (inject_Z 0). rewrite <- Zle_Qle. lia. }
  assert (Hmono : ∀ ep', (ep ≤ ep')%nat → Main.anneal ep' <= Main.anneal ep).
  { intros ep' Hle.
    assert (Hinj : inject_Z (Z.of_nat ep) <= inject_Z (Z.of_nat ep'))
      by (rewrite <- Zle_Qle; lia).
    destruct (anneal_cases ep) as [[Hx Heq]|[Hx Heq]];
      destruct (anneal_cases ep') as [[Hx' Heq']|[Hx' Heq']];
      cbv zeta in *; rewrite Heq, Heq'; lra. }
  pose proof (Hpos ep) as Hep.
  destruct (anneal_cases ep) as [[Hx Heq]|[Hx Heq]]; cbv zeta in *.
  - split; [rewrite Heq; lra|]. split; [rewrite Heq; lra|]. split; [done|].
    intros H17.
    assert (Hinj : inject_Z 17 <= inject_Z (Z.of_nat ep)) by (rewrite <- Zle_Qle; lia).
    change (inject_Z 17) with 17 in Hinj. lra.
  - rewrite Heq. split; [lra|]. split; [lra|]. split; [by rewrite <- Heq | done].
Qed.

Section main_returns.
Context `{PyRuntime G}.

Lemma train_episodes_mono n m eps :
  (n ≤ m)%nat → ∀ sim ctrl (g : G),
  Main.train_episodes n eps sim ctrl g ⊑ Main.train_episodes m eps sim ctrl g.
Proof.
  intros Hle. induction eps as [|ep eps IH]; intros sim ctrl g; simpl; [auto with fuel|].
  apply refines_bind; [by apply run_mono|]. intros [res st]. apply IH.
Qed.

(** The training loop returns, and keeps the configuration. *)
Lemma train_episodes_total eps : ∀ sim ctrl (g : G),
  0 < Simulation.dt sim →
  sampler_total (TrafficGenerator.rates (Simulation.gen sim)) (Simulation.dt sim) →
  QLearning.actions ctrl ≠ [] →
  (∀ pd, pd ∈ QLearning.actions ctrl → 0 < pd.2) →
  ∃ n sim' ctrl' g',
    Main.train_episodes n eps sim ctrl g = Ok (sim', ctrl', g')
    ∧ Simulation.gen sim' = Simulation.gen sim
    ∧ Simulation.dt sim' = Simulation.dt sim
    ∧ QLearning.actions ctrl' = QLearning.actions ctrl.
Proof.
  induction eps as [|ep eps IH]; intros sim ctrl g Hdt Hdraws Hne Hpos.
  { by exists O, sim, ctrl, g. }
  destruct (run_total (Simulation.reset sim) (Main.set_ε (Main.anneal ep) ctrl) 120 true g)
    as (n1 & r & st & ads & Hrun & _); [done..|].
  destruct (run_keeps _ _ _ _ _ _ _ _ Hrun) as (Hgen & Hdt' & _ & _ & Hacts & _).
  simpl in Hgen, Hdt', Hacts.
  destruct (IH (Simulation.sim st) (Simulation.ctrl st) (Simulation.rng st))
    as (n2 & sim' & ctrl' & g' & Htrain & Hgen' & Hdt'' & Hacts');
    [by rewrite Hdt' | by rewrite Hgen, Hdt' | by rewrite Hacts | by rewrite Hacts |].
  exists (n1 `max` n2), sim', ctrl', g'. simpl.
  rewrite (refines_Ok _ _ _ (run_mono n1 (n1 `max` n2) _ _ _ _ _ (Nat.le_max_l _ _)) Hrun).
  simpl.
  rewrite (refines_Ok _ _ _ (train_episodes_mono n2 (n1 `max` n2) eps (Nat.le_max_r _ _)
                               _ _ _) Htrain).
  split; [done|]. split; [congruence|]. split; congruence.
Qed.

(** X19. On a runtime whose Poisson draws halt for the four rates of [main]
    (with [dt = 1]), [main] returns: the baseline run, the twenty training
    episodes and the evaluation run all end.  The difference it reports is the
    baseline's average wait minus the evaluation's, and neither average is
    negative. *)
Theorem main_returns (g : G) :
  sampler_total [(North, 20 # 100); (South, 15 # 100); (East, 25 # 100); (West, 18 # 100)] 1 →
  ∃ fuel baseline result,
    Main.main fuel g
    = Ok (baseline, result, Simulation.avg_wait baseline - Simulation.avg_wait result)
    ∧ 0 <= Simulation.avg_wait baseline
    ∧ 0 <= Simulation.avg_wait result.
Proof.
  intros Hdraws.
  set (rates := [(North, 20 # 100); (South, 15 # 100); (East, 25 # 100); (West, 18 # 100)])
    in *.
  set (actions := [(NS, 5); (NS, 10); (EW, 5); (EW, 10)] : list (Phase * Q)).
  assert (Hpos : ∀ pd, pd ∈ actions → 0 < pd.2).
  { intros pd Hin. unfold actions in Hin.
    repeat (apply elem_of_cons in Hin as [->|Hin]); [..|by apply elem_of_nil in Hin];
      reflexivity. }
  set (sim := Simulation.reset (Simulation.new rates 1 (8 # 10))).
  set (fixed_ctrl := Main.set_ε 1 (QLearning.new actions (1 # 10) (9 # 10) (2 # 10))).
  set (ctrl := QLearning.new actions (1 # 10) (9 # 10) (3 # 10)).
  destruct (run_total sim fixed_ctrl 120 false g)
    as (n0 & baseline & st0 & ads0 & Hrun0 & _); [done..|].
  destruct (run_keeps _ _ _ _ _ _ _ _ Hrun0) as (Hgen0 & Hdt0 & _).
  destruct (run_waits n0 sim fixed_ctrl 120 false g baseline st0) as (_ & Havg0 & _);
    [done | by intros [] | done |].
  destruct (train_episodes_total (seq 1 20) (Simulation.sim st0) ctrl (Simulation.rng st0))
    as (n1 & sim1 & ctrl1 & g1 & Htrain & Hgen1 & Hdt1 & Hacts1);
    [by rewrite Hdt0 | by rewrite Hgen0, Hdt0 | done | done |].
  destruct (run_total (Simulation.reset sim1) (Main.set_ε 0 ctrl1) 120 false g1)
    as (n2 & result & st2 & ads2 & Hrun2 & _);
    [simpl; by rewrite Hdt1, Hdt0 | simpl; by rewrite Hgen1, Hgen0, Hdt1, Hdt0
    | simpl; by rewrite Hacts1 | simpl; by rewrite Hacts1 |].
  destruct (run_waits n2 (Simulation.reset sim1) (Main.set_ε 0 ctrl1) 120 false g1
              result st2) as (_ & Havg2 & _);
    [simpl; by rewrite Hacts1 | by intros [] | done |].
  set (n := (n0 `max` (n1 `max` n2))%nat).
  exists n, baseline, result. split; [|done].
  unfold Main.main. fold rates actions. cbv zeta. fold sim fixed_ctrl ctrl.
  rewrite (refines_Ok _ _ _ (run_mono n0 n sim fixed_ctrl 120 false g ltac:(lia)) Hrun0).
  cbn [mbind outcome_bind].
  rewrite (refines_Ok _ _ _ (train_episodes_mono n1 n (seq 1 20) ltac:(lia) _ _ _) Htrain).
  cbn [mbind outcome_bind].
  by rewrite (refines_Ok _ _ _ (run_mono n2 n _ _ 120 false g1 ltac:(lia)) Hrun2).
Qed.

End main_returns.

(** [main] on the demo runtime. *)
Lemma main_returns_witness :
  ∃ fuel baseline result,
    Main.main fuel true
    = Ok (baseline, result, Simulation.avg_wait baseline - Simulation.avg_wait result)
    ∧ 0 <= Simulation.avg_wait baseline
    ∧ 0 <= Simulation.avg_wait result.
Proof. apply (main_returns (H := Demo.runtime) true). exact demo_draws_halt. Defined.
